(** * Mini-CRM appeal routing (src/main.py): model and verified properties

    The program is a FastAPI service over five SQLite tables.  The model
    below keeps the tables as lists of rows in insertion order, the
    endpoints as computations in a state-and-exception monad over the
    database, and the SQL of [create_appeal] as list comprehensions with
    SQL's three-valued logic written out. *)

From Stdlib Require Import ZArith List String Bool Lia.
Import ListNotations.
Open Scope string_scope.
Open Scope list_scope.
Open Scope Z_scope.

(** ** Rows of the five tables (the SQLAlchemy models) *)

(** [tbl_operators].  [is_active] and [max_load] are nullable columns:
    [update_operator] stores [None] when the request body carries an explicit
    null, so both are options. *)
Module Operator.
Record t := mk {
  id : Z;
  name : string;
  is_active : option bool;
  max_load : option Z
}.
End Operator.

(** [tbl_sources]. *)
Module Source.
Record t := mk {
  id : Z;
  name : string
}.
End Source.

(** [tbl_operator_sources].  The three integer columns are only ever written
    from [OperatorSourceCreate], whose fields are required integers. *)
Module OperatorSource.
Record t := mk {
  id : Z;
  operator_id : Z;
  source_id : Z;
  weight : Z
}.
End OperatorSource.

(** [tbl_leads]. *)
Module Lead.
Record t := mk {
  id : Z;
  external_id : string
}.
End Lead.

(** [tbl_appeals]; [operator_id] is declared [nullable=True]. *)
Module Appeal.
Record t := mk {
  id : Z;
  lead_id : Z;
  source_id : Z;
  operator_id : option Z;
  timestamp : string;
  message : option string
}.
End Appeal.

(** The request bodies (the pydantic models). *)
Module OperatorCreate.
Record t := mk {
  name : string;
  is_active : bool;
  max_load : Z
}.
End OperatorCreate.

(** [OperatorUpdate] is dumped with [exclude_unset=True]: a field is either
    absent ([None]), or present with a value that may itself be null. *)
Module OperatorUpdate.
Record t := mk {
  is_active : option (option bool);
  max_load : option (option Z)
}.
End OperatorUpdate.

Module SourceCreate.
Record t := mk {
  name : string
}.
End SourceCreate.

Module OperatorSourceCreate.
Record t := mk {
  operator_id : Z;
  source_id : Z;
  weight : Z
}.
End OperatorSourceCreate.

Module AppealCreate.
Record t := mk {
  external_id : string;
  source_id : Z;
  message : option string
}.
End AppealCreate.

(** ** The database *)

Record DB := mkDB {
  tbl_operators : list Operator.t;
  tbl_sources : list Source.t;
  tbl_operator_sources : list OperatorSource.t;
  tbl_leads : list Lead.t;
  tbl_appeals : list Appeal.t
}.

Definition empty_db : DB := mkDB [] [] [] [] [].

(** SQLite gives a new row of an [INTEGER PRIMARY KEY] table the largest
    rowid in use plus one (1 in an empty table); the program never deletes. *)
Definition next_rowid (ids : list Z) : Z := 1 + fold_right Z.max 0 ids.

(** ** Exceptions and the monad of an endpoint

    A computation reads and writes the database and may raise.  The database
    is returned in both cases: what was committed before an exception stays
    committed. *)

Inductive exn :=
| ValueError
| IndexError
| OverflowError
| HTTPException (status_code : Z).

Definition M (A : Type) : Type := DB -> (exn + A) * DB.

Definition ret {A} (a : A) : M A := fun db => (inr a, db).

Definition bind {A B} (c : M A) (k : A -> M B) : M B :=
  fun db =>
    match c db with
    | (inl e, db') => (inl e, db')
    | (inr a, db') => k a db'
    end.

Definition raise {A} (e : exn) : M A := fun db => (inl e, db).

Definition get : M DB := fun db => (inr db, db).

Definition put (db' : DB) : M unit := fun _ => (inr tt, db').

(** A pure step that may raise, run inside an endpoint. *)
Definition lift {A} (r : exn + A) : M A := fun db => (r, db).

Declare Scope crm_scope.
Delimit Scope crm_scope with crm.
Notation "x <- c ;; k" := (bind c (fun x => k))
  (at level 61, c at next level, right associativity) : crm_scope.
Notation "c ;;; k" := (bind c (fun _ => k))
  (at level 61, right associativity) : crm_scope.
Open Scope crm_scope.

(** ** SQL's three-valued logic

    A nullable integer is [option Z]; a condition is [option bool] with [None]
    for NULL, and a WHERE or ON clause keeps a row only when it is [Some true]. *)

Definition sql_eq (a b : option Z) : option bool :=
  match a, b with
  | Some x, Some y => Some (x =? y)
  | _, _ => None
  end.

Definition sql_lt (a b : option Z) : option bool :=
  match a, b with
  | Some x, Some y => Some (x <? y)
  | _, _ => None
  end.

Definition sql_is_null {A} (a : option A) : option bool :=
  match a with
  | None => Some true
  | Some _ => Some false
  end.

Definition sql_or (p q : option bool) : option bool :=
  match p, q with
  | Some true, _ | _, Some true => Some true
  | Some false, Some false => Some false
  | _, _ => None
  end.

Definition sql_and (p q : option bool) : option bool :=
  match p, q with
  | Some false, _ | _, Some false => Some false
  | Some true, Some true => Some true
  | _, _ => None
  end.

(** [Operator.is_active == True]. *)
Definition sql_is_true (b : option bool) : option bool := b.

Definition sql_holds (p : option bool) : bool :=
  match p with
  | Some true => true
  | _ => false
  end.

(** ** The queries of [create_appeal] *)

Definition opt_Z_eqb (a b : option Z) : bool :=
  match a, b with
  | Some x, Some y => x =? y
  | None, None => true
  | _, _ => false
  end.

(** The groups of a GROUP BY: the distinct values of the key, NULL being one
    group of its own. *)
Fixpoint distinct (ks : list (option Z)) : list (option Z) :=
  match ks with
  | [] => []
  | k :: rest =>
      if existsb (opt_Z_eqb k) rest then distinct rest else k :: distinct rest
  end.

(** [func.count(Appeal.id)] within the group of key [k]: the rows of the
    group (the primary key is never NULL). *)
Definition group_count (appeals : list Appeal.t) (k : option Z) : Z :=
  Z.of_nat (List.length (filter (fun a => opt_Z_eqb (Appeal.operator_id a) k) appeals)).

(** [subquery]:
    SELECT operator_id, count(id) AS load FROM tbl_appeals GROUP BY operator_id *)
Definition load_subquery (appeals : list Appeal.t) : list (option Z * Z) :=
  map (fun k => (k, group_count appeals k))
      (distinct (map Appeal.operator_id appeals)).

(** [Operator JOIN OperatorSource ON Operator.id == OperatorSource.operator_id].
    SQL leaves the order of the joined rows to the engine; SQLite walks
    [tbl_operator_sources] and looks the operator of each affinity row up by
    its primary key, so the rows come in the order of the affinity rows. *)
Definition join_operator_sources (ops : list Operator.t)
    (oss : list OperatorSource.t) : list (Operator.t * OperatorSource.t) :=
  flat_map (fun os =>
    map (fun op => (op, os))
        (filter (fun op => Operator.id op =? OperatorSource.operator_id os) ops))
    oss.

(** [... OUTER JOIN subquery ON subquery.c.operator_id == Operator.id]: a
    joined row without a matching group is kept once, with a NULL load. *)
Definition outerjoin_load (rows : list (Operator.t * OperatorSource.t))
    (subquery : list (option Z * Z))
  : list (Operator.t * OperatorSource.t * option Z) :=
  flat_map (fun row =>
    match filter (fun g => sql_holds (sql_eq (fst g) (Some (Operator.id (fst row)))))
                 subquery with
    | [] => [(row, None)]
    | groups => map (fun g => (row, Some (snd g))) groups
    end)
    rows.

(** The WHERE clause of the candidates query. *)
Definition candidate_filter (source_id : Z)
    (r : Operator.t * OperatorSource.t * option Z) : bool :=
  let '(op, os, load) := r in
  sql_holds
    (sql_and (Some (OperatorSource.source_id os =? source_id))
      (sql_and (sql_is_true (Operator.is_active op))
               (sql_or (sql_lt load (Operator.max_load op))
                       (sql_is_null load)))).

(** The rows [(Operator, OperatorSource.weight)] the SELECT returns. *)
Definition candidate_rows (db : DB) (source_id : Z) : list (Operator.t * Z) :=
  map (fun r => let '(op, os, _) := r in (op, OperatorSource.weight os))
      (filter (candidate_filter source_id)
         (outerjoin_load
            (join_operator_sources (tbl_operators db) (tbl_operator_sources db))
            (load_subquery (tbl_appeals db)))).

Definition opt_bool_eqb (a b : option bool) : bool :=
  match a, b with
  | Some x, Some y => Bool.eqb x y
  | None, None => true
  | _, _ => false
  end.

(** The session keeps one [Operator] object for each row of [tbl_operators]:
    two result rows hold the same object when they hold the same table row. *)
Definition operator_eqb (a b : Operator.t) : bool :=
  (Operator.id a =? Operator.id b) &&
  String.eqb (Operator.name a) (Operator.name b) &&
  opt_bool_eqb (Operator.is_active a) (Operator.is_active b) &&
  opt_Z_eqb (Operator.max_load a) (Operator.max_load b).

(** The key on which the legacy [Query] compares two rows of this query: the
    identity of the [Operator] object and the value of the weight. *)
Definition same_row (a b : Operator.t * Z) : bool :=
  operator_eqb (fst a) (fst b) && (snd a =? snd b).

(** SQLAlchemy's [unique_list]: the rows in order, without those whose key
    was seen in an earlier row. *)
Fixpoint unique_list (seen rows : list (Operator.t * Z)) : list (Operator.t * Z) :=
  match rows with
  | [] => []
  | r :: rest =>
      if existsb (same_row r) seen then unique_list seen rest
      else r :: unique_list (r :: seen) rest
  end.

(** [candidates]: what [.all()] hands over.  A legacy [Query] that selects a
    mapped entity returns each distinct row once, so two affinity rows that
    link one operator to the source with the same weight give one candidate
    row.  The order is that of the SELECT; only the choice between rows of
    equal weight depends on it. *)
Definition candidates (db : DB) (source_id : Z) : list (Operator.t * Z) :=
  unique_list [] (candidate_rows db source_id).

(** ** The selection step of [create_appeal] *)

(** The error monad of the pure steps. *)
Definition and_then {A B} (r : exn + A) (k : A -> exn + B) : exn + B :=
  match r with
  | inl e => inl e
  | inr a => k a
  end.

Notation "'let?' x ':=' r 'in' k" := (and_then r (fun x => k))
  (at level 10, x pattern, r at level 100, k at level 200) : crm_scope.

(** [[(op.id, w) for op, w in candidates if w > 0]] *)
Definition positive_pairs (candidates : list (Operator.t * Z)) : list (Z * Z) :=
  map (fun c => (Operator.id (fst c), snd c))
      (filter (fun c => snd c >? 0) candidates).

(** [zip( *rows )] on rows that are 2-tuples: the tuple of first components
    and the tuple of second components, and nothing at all when there is no
    row. *)
Definition zip_star (rows : list (Z * Z)) : list (list Z) :=
  match rows with
  | [] => []
  | _ :: _ => [map fst rows; map snd rows]
  end.

(** [a, b = it]: unpacking anything but two values raises [ValueError]. *)
Definition unpack2 {A} (it : list A) : exn + (A * A) :=
  match it with
  | [a; b] => inr (a, b)
  | _ => inl ValueError
  end.

(** [sum(weights)] *)
Definition sum (ws : list Z) : Z := fold_left Z.add ws 0.

(** [itertools.accumulate(weights)]: the running totals. *)
Fixpoint accumulate_from (acc : Z) (ws : list Z) : list Z :=
  match ws with
  | [] => []
  | w :: rest => (acc + w) :: accumulate_from (acc + w) rest
  end.

Definition accumulate (ws : list Z) : list Z := accumulate_from 0 ws.

(** [bisect(a, x, 0, hi)] on an increasing [a]: the first index below [hi]
    whose entry exceeds [x], and [hi] when there is none. *)
Fixpoint bisect (a : list Z) (x : Z) (hi : nat) : nat :=
  match hi, a with
  | S hi', c :: rest => if x <? c then O else S (bisect rest x hi')
  | _, _ => O
  end.

Fixpoint last_opt {A} (xs : list A) : option A :=
  match xs with
  | [] => None
  | [x] => Some x
  | _ :: rest => last_opt rest
  end.

(** [random.choices(population, weights=weights, k=1)[0]], as the library
    computes it: [population[bisect(cum_weights, random() * total, 0, n - 1)]].
    The running totals are integers, so the point [random() * total] of
    [[0, total)] enters the comparison only through its integer part; the
    random source is that integer, the ticket [x], uniform on
    [0 .. total - 1] for a uniform [random()]. *)
Definition choices {A} (population : list A) (weights : list Z) (x : Z)
  : exn + A :=
  let n := List.length population in
  let cum_weights := accumulate weights in
  if negb (List.length cum_weights =? n)%nat then inl ValueError
  else
    match last_opt cum_weights with
    | None => inl IndexError
    | Some total =>
        if total <=? 0 then inl ValueError
        else
          match nth_error population (bisect cum_weights x (n - 1)) with
          | Some c => inr c
          | None => inl IndexError
          end
    end.

(** [weights.index(v)]: the first position holding [v]. *)
Fixpoint index (xs : list Z) (v : Z) : exn + nat :=
  match xs with
  | [] => inl ValueError
  | y :: rest =>
      if y =? v then inr O
      else let? i := index rest v in inr (S i)
  end.

(** [operators[i]] *)
Definition getitem {A} (xs : list A) (i : nat) : exn + A :=
  match nth_error xs i with
  | Some a => inr a
  | None => inl IndexError
  end.

(** Lines 239-246: from the candidate rows and the ticket of the draw to the
    operator of the new appeal. *)
Definition select_operator (candidates : list (Operator.t * Z)) (x : Z)
  : exn + option Z :=
  match candidates with
  | [] => inr None
  | _ :: _ =>
      let? (operators, weights) := unpack2 (zip_star (positive_pairs candidates)) in
      let total_weight := sum weights in
      if total_weight >? 0 then
        let? chosen_weight := choices weights weights x in
        let? i := index weights chosen_weight in
        let? operator_id := getitem operators i in
        inr (Some operator_id)
      else inr None
  end.

(** ** The endpoints

    In this section every integer of a request is taken as one SQLite can
    hold; what the driver does with the others is added in [Driver] below. *)

Definition insert_operator (o : Operator.t) (db : DB) : DB :=
  mkDB (tbl_operators db ++ [o]) (tbl_sources db) (tbl_operator_sources db)
       (tbl_leads db) (tbl_appeals db).

Definition insert_source (s : Source.t) (db : DB) : DB :=
  mkDB (tbl_operators db) (tbl_sources db ++ [s]) (tbl_operator_sources db)
       (tbl_leads db) (tbl_appeals db).

Definition insert_operator_source (os : OperatorSource.t) (db : DB) : DB :=
  mkDB (tbl_operators db) (tbl_sources db) (tbl_operator_sources db ++ [os])
       (tbl_leads db) (tbl_appeals db).

Definition insert_lead (l : Lead.t) (db : DB) : DB :=
  mkDB (tbl_operators db) (tbl_sources db) (tbl_operator_sources db)
       (tbl_leads db ++ [l]) (tbl_appeals db).

Definition insert_appeal (a : Appeal.t) (db : DB) : DB :=
  mkDB (tbl_operators db) (tbl_sources db) (tbl_operator_sources db)
       (tbl_leads db) (tbl_appeals db ++ [a]).

Definition set_operators (ops : list Operator.t) (db : DB) : DB :=
  mkDB ops (tbl_sources db) (tbl_operator_sources db)
       (tbl_leads db) (tbl_appeals db).

(** POST /operators/ *)
Definition create_operator (operator : OperatorCreate.t) : M Operator.t :=
  db <- get ;;
  let db_operator :=
    Operator.mk (next_rowid (map Operator.id (tbl_operators db)))
                (OperatorCreate.name operator)
                (Some (OperatorCreate.is_active operator))
                (Some (OperatorCreate.max_load operator)) in
  put (insert_operator db_operator db) ;;;
  ret db_operator.

(** GET /operators/ *)
Definition list_operators : M (list Operator.t) :=
  db <- get ;; ret (tbl_operators db).

(** The [setattr] loop of [update_operator] over the fields that were set. *)
Definition apply_update (u : OperatorUpdate.t) (o : Operator.t) : Operator.t :=
  Operator.mk (Operator.id o) (Operator.name o)
    (match OperatorUpdate.is_active u with
     | Some v => v
     | None => Operator.is_active o
     end)
    (match OperatorUpdate.max_load u with
     | Some v => v
     | None => Operator.max_load o
     end).

(** PATCH /operators/{operator_id} *)
Definition update_operator (operator_id : Z) (operator : OperatorUpdate.t)
  : M Operator.t :=
  db <- get ;;
  match find (fun o => Operator.id o =? operator_id) (tbl_operators db) with
  | None => raise (HTTPException 404)
  | Some db_operator =>
      let updated := apply_update operator db_operator in
      put (set_operators
             (map (fun o => if Operator.id o =? operator_id
                            then apply_update operator o else o)
                  (tbl_operators db)) db) ;;;
      ret updated
  end.

(** POST /sources/ *)
Definition create_source (source : SourceCreate.t) : M Source.t :=
  db <- get ;;
  let db_source :=
    Source.mk (next_rowid (map Source.id (tbl_sources db)))
              (SourceCreate.name source) in
  put (insert_source db_source db) ;;;
  ret db_source.

(** GET /sources/ *)
Definition list_sources : M (list Source.t) :=
  db <- get ;; ret (tbl_sources db).

(** POST /operator-sources/: the two references are stored as given, neither
    the operator nor the source is looked up. *)
Definition create_operator_source (os : OperatorSourceCreate.t)
  : M OperatorSource.t :=
  db <- get ;;
  let db_os :=
    OperatorSource.mk (next_rowid (map OperatorSource.id (tbl_operator_sources db)))
                      (OperatorSourceCreate.operator_id os)
                      (OperatorSourceCreate.source_id os)
                      (OperatorSourceCreate.weight os) in
  put (insert_operator_source db_os db) ;;;
  ret db_os.

(** [if source_id:] on an [Optional[int]]: [None] and [0] are both false. *)
Definition truthy (source_id : option Z) : bool :=
  match source_id with
  | None => false
  | Some n => negb (n =? 0)
  end.

(** GET /operator-sources/ *)
Definition list_operator_sources (source_id : option Z)
  : M (list OperatorSource.t) :=
  db <- get ;;
  let query := tbl_operator_sources db in
  let query :=
    if truthy source_id
    then filter (fun os => sql_holds (sql_eq (Some (OperatorSource.source_id os))
                                             source_id)) query
    else query in
  ret query.

(** The three stages of [create_appeal], each ending where the code touches
    the database for the last time before the next stage begins. *)

(** Lines 222-227: find the lead of [external_id] or create and commit it. *)
Definition find_or_create_lead (external_id : string) : M Lead.t :=
  db <- get ;;
  match find (fun l => String.eqb (Lead.external_id l) external_id) (tbl_leads db) with
  | Some db_lead => ret db_lead
  | None =>
      let db_lead := Lead.mk (next_rowid (map Lead.id (tbl_leads db))) external_id in
      put (insert_lead db_lead db) ;;;
      ret db_lead
  end.

(** Lines 230-246: read the candidates and draw. *)
Definition choose_operator (source_id : Z) (x : Z) : M (option Z) :=
  db <- get ;;
  lift (select_operator (candidates db source_id) x).

(** Lines 249-259: insert the appeal and commit. *)
Definition store_appeal (lead_id source_id : Z) (operator_id : option Z)
    (now : string) (message : option string) : M Appeal.t :=
  db <- get ;;
  let db_appeal :=
    Appeal.mk (next_rowid (map Appeal.id (tbl_appeals db)))
              lead_id source_id operator_id now message in
  put (insert_appeal db_appeal db) ;;;
  ret db_appeal.

(** POST /appeals/.  [x] is the ticket of the draw and [now] the text of
    [datetime.now().isoformat()]. *)
Definition create_appeal (appeal : AppealCreate.t) (x : Z) (now : string)
  : M Appeal.t :=
  db_lead <- find_or_create_lead (AppealCreate.external_id appeal) ;;
  operator_id <- choose_operator (AppealCreate.source_id appeal) x ;;
  store_appeal (Lead.id db_lead) (AppealCreate.source_id appeal) operator_id
               now (AppealCreate.message appeal).

(** GET /leads/: each lead with the appeals of its relationship. *)
Definition list_leads : M (list (Lead.t * list Appeal.t)) :=
  db <- get ;;
  ret (map (fun l => (l, filter (fun a => Appeal.lead_id a =? Lead.id l)
                                (tbl_appeals db)))
           (tbl_leads db)).

(** GET /appeals/ *)
Definition list_appeals : M (list Appeal.t) :=
  db <- get ;; ret (tbl_appeals db).

(** ** The integers the driver can bind

    sqlite3 hands a Python [int] to SQLite as a signed 64-bit integer and
    raises [OverflowError] when it does not fit.  The endpoints of [Driver]
    are those above with this check at the statement where the code binds an
    integer of the request.  Integers read from a table are SQLite integers
    already. *)

Definition sqlite_integer (n : Z) : bool :=
  (- 2 ^ 63 <=? n) && (n <? 2 ^ 63).

Definition bind_parameter (n : Z) : M unit :=
  if sqlite_integer n then ret tt else raise OverflowError.

Module Driver.

(** POST /operators/: the INSERT binds [max_load]. *)
Definition create_operator (operator : OperatorCreate.t) : M Operator.t :=
  bind_parameter (OperatorCreate.max_load operator) ;;;
  create_operator operator.

(** PATCH /operators/{operator_id}: the SELECT binds [operator_id]; the
    UPDATE at the commit binds the [max_load] of the body when it has one. *)
Definition update_operator (operator_id : Z) (operator : OperatorUpdate.t)
  : M Operator.t :=
  bind_parameter operator_id ;;;
  db <- get ;;
  match find (fun o => Operator.id o =? operator_id) (tbl_operators db) with
  | None => raise (HTTPException 404)
  | Some _ =>
      match OperatorUpdate.max_load operator with
      | Some (Some m) => bind_parameter m
      | _ => ret tt
      end ;;;
      update_operator operator_id operator
  end.

(** POST /operator-sources/: the INSERT binds the three integers. *)
Definition create_operator_source (os : OperatorSourceCreate.t)
  : M OperatorSource.t :=
  bind_parameter (OperatorSourceCreate.operator_id os) ;;;
  bind_parameter (OperatorSourceCreate.source_id os) ;;;
  bind_parameter (OperatorSourceCreate.weight os) ;;;
  create_operator_source os.

(** GET /operator-sources/: the filter, when it is applied, binds
    [source_id]. *)
Definition list_operator_sources (source_id : option Z)
  : M (list OperatorSource.t) :=
  match source_id with
  | Some n => if truthy source_id then bind_parameter n else ret tt
  | None => ret tt
  end ;;;
  list_operator_sources source_id.

(** POST /appeals/: the lead is looked up by its string and committed; then
    the candidates query binds [source_id]. *)
Definition create_appeal (appeal : AppealCreate.t) (x : Z) (now : string)
  : M Appeal.t :=
  db_lead <- find_or_create_lead (AppealCreate.external_id appeal) ;;
  bind_parameter (AppealCreate.source_id appeal) ;;;
  operator_id <- choose_operator (AppealCreate.source_id appeal) x ;;
  store_appeal (Lead.id db_lead) (AppealCreate.source_id appeal) operator_id
               now (AppealCreate.message appeal).

End Driver.

(** ** The service as a state machine *)

Inductive request :=
| CreateOperator (operator : OperatorCreate.t)
| ListOperators
| UpdateOperator (operator_id : Z) (operator : OperatorUpdate.t)
| CreateSource (source : SourceCreate.t)
| ListSources
| CreateOperatorSource (os : OperatorSourceCreate.t)
| ListOperatorSources (source_id : option Z)
| CreateAppeal (appeal : AppealCreate.t) (x : Z) (now : string)
| ListLeads
| ListAppeals.

(** The database a request leaves behind, whatever it answers. *)
Definition handle (r : request) (db : DB) : DB :=
  match r with
  | CreateOperator o => snd (create_operator o db)
  | ListOperators => snd (list_operators db)
  | UpdateOperator i u => snd (update_operator i u db)
  | CreateSource s => snd (create_source s db)
  | ListSources => snd (list_sources db)
  | CreateOperatorSource os => snd (create_operator_source os db)
  | ListOperatorSources s => snd (list_operator_sources s db)
  | CreateAppeal a x now => snd (create_appeal a x now db)
  | ListLeads => snd (list_leads db)
  | ListAppeals => snd (list_appeals db)
  end.

Definition run (rs : list request) (db : DB) : DB :=
  fold_left (fun d r => handle r d) rs db.

Definition reachable (db : DB) : Prop :=
  exists rs, db = run rs empty_db.

(** ** Load, as the spec defines it and as the query sees it *)

(** The number of appeals attributed to the operator with identifier [i]. *)
Definition load (db : DB) (i : Z) : Z :=
  group_count (tbl_appeals db) (Some i).

(** The load column the outer join attaches to an operator: NULL when no
    appeal is attributed to it. *)
Definition joined_load (db : DB) (i : Z) : option Z :=
  if load db i =? 0 then None else Some (load db i).

(** The part of the WHERE clause that looks at the operator alone: the
    activity test and the capacity test on the joined load. *)
Definition operator_passes (db : DB) (op : Operator.t) : bool :=
  sql_holds
    (sql_and (sql_is_true (Operator.is_active op))
             (sql_or (sql_lt (joined_load db (Operator.id op)) (Operator.max_load op))
                     (sql_is_null (joined_load db (Operator.id op))))).

(** The part that looks at the affinity row: the ON clause of the join and
    the test on the source. *)
Definition linked (source_id : Z) (op : Operator.t) (os : OperatorSource.t) : bool :=
  (Operator.id op =? OperatorSource.operator_id os) &&
  (OperatorSource.source_id os =? source_id).

(** ** Eligibility as the specification words it, and as the query has it *)

Definition has_affinity (db : DB) (source_id : Z) (op : Operator.t) : Prop :=
  exists os, In os (tbl_operator_sources db) /\
             OperatorSource.operator_id os = Operator.id op /\
             OperatorSource.source_id os = source_id.

(** The selection predicate of the specification: active, linked to the
    source, and current load below [max_load]. *)
Definition spec_eligible (db : DB) (source_id : Z) (op : Operator.t) : Prop :=
  Operator.is_active op = Some true /\
  has_affinity db source_id op /\
  exists m, Operator.max_load op = Some m /\ load db (Operator.id op) < m.

(** The predicate of the query: the capacity test also passes when no appeal
    is attributed to the operator, whatever [max_load] is. *)
Definition query_eligible (db : DB) (source_id : Z) (op : Operator.t) : Prop :=
  Operator.is_active op = Some true /\
  has_affinity db source_id op /\
  (load db (Operator.id op) = 0 \/
   exists m, Operator.max_load op = Some m /\ load db (Operator.id op) < m).

(** The rows of [tbl_leads] with a given external identifier. *)
Definition leads_of (db : DB) (external_id : string) : list Lead.t :=
  filter (fun l => String.eqb (Lead.external_id l) external_id) (tbl_leads db).

(** Requests that are calls of [create_appeal]. *)
Definition is_create_appeal (r : request) : Prop :=
  match r with
  | CreateAppeal _ _ _ => True
  | _ => False
  end.

(** ** The draw as a probability

    The ticket of a draw over total weight [W] is uniform on [0 .. W - 1]:
    the probability of an outcome is the number of tickets that give it,
    over [W]. *)

Definition tickets (total : Z) : list Z :=
  map Z.of_nat (seq 0 (Z.to_nat total)).

(** The total weight of the draw: [sum(weights)] over the positive rows. *)
Definition total_weight (candidates : list (Operator.t * Z)) : Z :=
  sum (map snd (positive_pairs candidates)).

Definition selects (candidates : list (Operator.t * Z)) (operator_id x : Z) : bool :=
  match select_operator candidates x with
  | inr (Some o) => o =? operator_id
  | _ => false
  end.

(** The number of tickets on which the operator is selected. *)
Definition draws (candidates : list (Operator.t * Z)) (operator_id : Z) : Z :=
  Z.of_nat (List.length (filter (selects candidates operator_id)
                                (tickets (total_weight candidates)))).

(** ** Concurrent calls of [create_appeal]

    A call goes through its three stages in order; between two stages of one
    call, stages of other calls may run.  The code holds no lock and keeps no
    transaction open from the SELECT of the second stage to the INSERT of the
    third.  A stage itself runs undisturbed, which leaves out interleavings
    the program has and adds none. *)

Inductive call :=
| Accepted (appeal : AppealCreate.t) (x : Z) (now : string)
| LeadResolved (appeal : AppealCreate.t) (x : Z) (now : string) (db_lead : Lead.t)
| OperatorChosen (appeal : AppealCreate.t) (now : string) (db_lead : Lead.t)
                 (operator_id : option Z)
| Answered (response : exn + Appeal.t).

(** One stage of one call. *)
Definition stage (c : call) (db : DB) : call * DB :=
  match c with
  | Accepted appeal x now =>
      match find_or_create_lead (AppealCreate.external_id appeal) db with
      | (inr db_lead, db') => (LeadResolved appeal x now db_lead, db')
      | (inl e, db') => (Answered (inl e), db')
      end
  | LeadResolved appeal x now db_lead =>
      match choose_operator (AppealCreate.source_id appeal) x db with
      | (inr operator_id, db') => (OperatorChosen appeal now db_lead operator_id, db')
      | (inl e, db') => (Answered (inl e), db')
      end
  | OperatorChosen appeal now db_lead operator_id =>
      match store_appeal (Lead.id db_lead) (AppealCreate.source_id appeal)
                         operator_id now (AppealCreate.message appeal) db with
      | (r, db') => (Answered r, db')
      end
  | Answered r => (Answered r, db)
  end.

(** A schedule names, step by step, the call that runs its next stage. *)
Fixpoint advance (n : nat) (calls : list call) (db : DB) : list call * DB :=
  match calls, n with
  | [], _ => ([], db)
  | c :: rest, O => let '(c', db') := stage c db in (c' :: rest, db')
  | c :: rest, S n' => let '(rest', db') := advance n' rest db in (c :: rest', db')
  end.

Fixpoint interleave (schedule : list nat) (calls : list call) (db : DB)
  : list call * DB :=
  match schedule with
  | [] => (calls, db)
  | n :: rest => let '(calls', db') := advance n calls db in interleave rest calls' db'
  end.

(** ** The scenarios, as states the service reaches from an empty database *)

(** Scenario B: O3 is active with capacity 5 and is linked to the only
    source with weight 0. *)
Definition scenario_zero_weight : DB :=
  run [CreateOperator (OperatorCreate.mk "O3" true 5);
       CreateSource (SourceCreate.mk "S");
       CreateOperatorSource (OperatorSourceCreate.mk 1 1 0)] empty_db.

(** Two active operators linked to the source with the same weight 3. *)
Definition scenario_equal_weights : DB :=
  run [CreateOperator (OperatorCreate.mk "O1" true 5);
       CreateOperator (OperatorCreate.mk "O2" true 5);
       CreateSource (SourceCreate.mk "S");
       CreateOperatorSource (OperatorSourceCreate.mk 1 1 3);
       CreateOperatorSource (OperatorSourceCreate.mk 2 1 3)] empty_db.

(** An active operator of capacity 0, linked with weight 1, without appeals. *)
Definition scenario_zero_capacity : DB :=
  run [CreateOperator (OperatorCreate.mk "O" true 0);
       CreateSource (SourceCreate.mk "S");
       CreateOperatorSource (OperatorSourceCreate.mk 1 1 1)] empty_db.

(** An active operator of capacity 1, linked with weight 1, without appeals. *)
Definition scenario_last_slot : DB :=
  run [CreateOperator (OperatorCreate.mk "O" true 1);
       CreateSource (SourceCreate.mk "S");
       CreateOperatorSource (OperatorSourceCreate.mk 1 1 1)] empty_db.

(** Scenario C: O4 is inactive and linked to the source with weight 10. *)
Definition scenario_inactive : DB :=
  run [CreateOperator (OperatorCreate.mk "O4" false 5);
       CreateSource (SourceCreate.mk "S");
       CreateOperatorSource (OperatorSourceCreate.mk 1 1 10)] empty_db.

(** Scenario D: O5 has capacity 1 and holds one appeal. *)
Definition scenario_full : DB :=
  run [CreateOperator (OperatorCreate.mk "O5" true 1);
       CreateSource (SourceCreate.mk "S");
       CreateOperatorSource (OperatorSourceCreate.mk 1 1 1);
       CreateAppeal (AppealCreate.mk "lead-0" 1 None) 0 "2024-01-01T00:00:00"]
      empty_db.

(** An affinity row for source 7 in a database without any source. *)
Definition scenario_unknown_source : DB :=
  run [CreateOperator (OperatorCreate.mk "O" true 5);
       CreateOperatorSource (OperatorSourceCreate.mk 1 7 1)] empty_db.

Definition the_operator (name : string) (max_load : Z) : Operator.t :=
  Operator.mk 1 name (Some true) (Some max_load).

Definition an_appeal (external_id : string) (source_id : Z) : AppealCreate.t :=
  AppealCreate.mk external_id source_id None.

(** ** What a call of [create_appeal] computes, stage by stage *)

(** The lead the first stage hands on. *)
Definition resolved_lead (external_id : string) (db : DB) : Lead.t :=
  match find (fun l => String.eqb (Lead.external_id l) external_id) (tbl_leads db) with
  | Some db_lead => db_lead
  | None => Lead.mk (next_rowid (map Lead.id (tbl_leads db))) external_id
  end.

(** The database after the first stage. *)
Definition after_lead (external_id : string) (db : DB) : DB :=
  match find (fun l => String.eqb (Lead.external_id l) external_id) (tbl_leads db) with
  | Some _ => db
  | None => insert_lead (Lead.mk (next_rowid (map Lead.id (tbl_leads db))) external_id) db
  end.

(** The row the third stage inserts for a chosen operator. *)
Definition new_appeal (appeal : AppealCreate.t) (now : string) (db : DB)
    (operator_id : option Z) : Appeal.t :=
  Appeal.mk (next_rowid (map Appeal.id (tbl_appeals db)))
            (Lead.id (resolved_lead (AppealCreate.external_id appeal) db))
            (AppealCreate.source_id appeal) operator_id now
            (AppealCreate.message appeal).

(** ** Notions used for the endpoints beyond [create_appeal] *)

(** An update that sets no field. *)
Definition empty_update : OperatorUpdate.t := OperatorUpdate.mk None None.

(** The identifiers SQLite hands out in a table nobody deletes from. *)
Definition ids_from_one (n : nat) : list Z := map Z.of_nat (seq 1 n).

(** What an appeal refers to: a lead of the table, and, when it is assigned,
    an operator of the table that has an affinity row of positive weight for
    the source of the appeal. *)
Definition appeal_refs (db : DB) (a : Appeal.t) : Prop :=
  (exists l, In l (tbl_leads db) /\ Lead.id l = Appeal.lead_id a) /\
  (forall i, Appeal.operator_id a = Some i ->
     (exists op, In op (tbl_operators db) /\ Operator.id op = i) /\
     (exists os, In os (tbl_operator_sources db) /\
                 OperatorSource.operator_id os = i /\
                 OperatorSource.source_id os = Appeal.source_id a /\
                 0 < OperatorSource.weight os)).

(** The integrity the service keeps by itself, without any constraint of the
    database: identifiers are 1, 2, 3, ... in every table, no two leads share
    an external identifier, and appeals refer to rows that exist. *)
Record consistent (db : DB) : Prop := {
  operator_ids : map Operator.id (tbl_operators db)
                 = ids_from_one (List.length (tbl_operators db));
  source_ids : map Source.id (tbl_sources db)
               = ids_from_one (List.length (tbl_sources db));
  operator_source_ids : map OperatorSource.id (tbl_operator_sources db)
                        = ids_from_one (List.length (tbl_operator_sources db));
  lead_ids : map Lead.id (tbl_leads db)
             = ids_from_one (List.length (tbl_leads db));
  appeal_ids : map Appeal.id (tbl_appeals db)
               = ids_from_one (List.length (tbl_appeals db));
  external_ids : NoDup (map Lead.external_id (tbl_leads db));
  appeal_references : forall a, In a (tbl_appeals db) -> appeal_refs db a
}.

(** Requests that are calls of [update_operator]. *)
Definition is_update_operator (r : request) : Prop :=
  match r with
  | UpdateOperator _ _ => True
  | _ => False
  end.

(** Scenario A: O1 and O2, both of capacity 2, linked to the source with
    weights 1 and 3. *)
Definition scenario_two_operators : DB :=
  run [CreateOperator (OperatorCreate.mk "O1" true 2);
       CreateOperator (OperatorCreate.mk "O2" true 2);
       CreateSource (SourceCreate.mk "S");
       CreateOperatorSource (OperatorSourceCreate.mk 1 1 1);
       CreateOperatorSource (OperatorSourceCreate.mk 2 1 3)] empty_db.

(** [db'] has everything [db] has: the rows of sources, affinities, leads
    and appeals of [db] are the first rows of [db'], unchanged, and so are the
    identifiers and names of its operators. *)
Definition extends (db db' : DB) : Prop :=
  (exists added, map (fun o => (Operator.id o, Operator.name o)) (tbl_operators db')
                 = map (fun o => (Operator.id o, Operator.name o)) (tbl_operators db)
                   ++ added) /\
  (exists added, tbl_sources db' = tbl_sources db ++ added) /\
  (exists added, tbl_operator_sources db' = tbl_operator_sources db ++ added) /\
  (exists added, tbl_leads db' = tbl_leads db ++ added) /\
  (exists added, tbl_appeals db' = tbl_appeals db ++ added).

(** O1 linked to the source twice with the same weight 3 and once more with
    weight 1; O2 linked with weight 4. *)
Definition scenario_repeated_link : DB :=
  run [CreateOperator (OperatorCreate.mk "O1" true 5);
       CreateOperator (OperatorCreate.mk "O2" true 5);
       CreateSource (SourceCreate.mk "S");
       CreateOperatorSource (OperatorSourceCreate.mk 1 1 3);
       CreateOperatorSource (OperatorSourceCreate.mk 1 1 3);
       CreateOperatorSource (OperatorSourceCreate.mk 2 1 4);
       CreateOperatorSource (OperatorSourceCreate.mk 1 1 1)] empty_db.

(** The database in which the appeal of identifier [i] is no longer in the
    table: the state "the appeal is completed and its load released" speaks
    of.  No request of the service leads there. *)
Definition without_appeal (i : Z) (db : DB) : DB :=
  mkDB (tbl_operators db) (tbl_sources db) (tbl_operator_sources db)
       (tbl_leads db)
       (filter (fun a => negb (Appeal.id a =? i)) (tbl_appeals db)).

(** O1 has capacity 0 and is linked to the source with weight 0; O2 is linked
    with weight 5.  No appeals. *)
Definition scenario_zero_capacity_zero_weight : DB :=
  run [CreateOperator (OperatorCreate.mk "O1" true 0);
       CreateOperator (OperatorCreate.mk "O2" true 5);
       CreateSource (SourceCreate.mk "S");
       CreateOperatorSource (OperatorSourceCreate.mk 1 1 0);
       CreateOperatorSource (OperatorSourceCreate.mk 2 1 5)] empty_db.

(** Whether the UPDATE of [update_operator] can bind the body: its
    [max_load], when it has one that is not null, is the only integer. *)
Definition update_fits (u : OperatorUpdate.t) : bool :=
  match OperatorUpdate.max_load u with
  | Some (Some m) => sqlite_integer m
  | _ => true
  end.

(** * Properties *)

(** ** The monad *)

Lemma bind_run {A B} (c : M A) (k : A -> M B) (db : DB) :
  bind c k db =
  match c db with
  | (inl e, db') => (inl e, db')
  | (inr a, db') => k a db'
  end.
Proof. reflexivity. Qed.

(** ** The load subquery and the outer join *)

Lemma sql_eq_some_r (k : option Z) (i : Z) :
  sql_holds (sql_eq k (Some i)) = opt_Z_eqb k (Some i).
Proof. destruct k as [x|]; simpl; [destruct (x =? i)|]; reflexivity. Qed.

Lemma opt_Z_eqb_eq (a b : option Z) : opt_Z_eqb a b = true <-> a = b.
Proof.
  destruct a as [x|], b as [y|]; simpl; split; intros H;
    try discriminate; try reflexivity.
  - apply Z.eqb_eq in H. now subst.
  - injection H as ->. apply Z.eqb_refl.
Qed.

Lemma filter_map_comm {A B} (f : B -> bool) (g : A -> B) (l : list A) :
  filter f (map g l) = map g (filter (fun a => f (g a)) l).
Proof.
  induction l as [|a l IH]; simpl; [reflexivity|].
  rewrite IH. now destruct (f (g a)).
Qed.

Lemma existsb_key_false (k : option Z) (ks : list (option Z)) :
  existsb (opt_Z_eqb k) ks = false ->
  filter (fun k' => opt_Z_eqb k' k) ks = [].
Proof.
  induction ks as [|k' ks IH]; simpl; [reflexivity|].
  intros H. apply orb_false_iff in H as [Hk Hks].
  replace (opt_Z_eqb k' k) with false.
  - now apply IH.
  - destruct (opt_Z_eqb k' k) eqn:E; [|reflexivity].
    apply opt_Z_eqb_eq in E. subst k'.
    rewrite (proj2 (opt_Z_eqb_eq k k) eq_refl) in Hk. discriminate.
Qed.

Lemma filter_distinct_nil (k : option Z) (ks : list (option Z)) :
  filter (fun k' => opt_Z_eqb k' k) ks = [] ->
  filter (fun k' => opt_Z_eqb k' k) (distinct ks) = [].
Proof.
  induction ks as [|k' ks IH]; simpl; [reflexivity|].
  destruct (opt_Z_eqb k' k) eqn:E; [discriminate|].
  intros H. destruct (existsb (opt_Z_eqb k') ks); simpl; [now apply IH|].
  rewrite E. now apply IH.
Qed.

(** Among the groups, the key [k] occurs once if some row carries it and
    not at all otherwise. *)
Lemma filter_distinct (k : option Z) (ks : list (option Z)) :
  filter (fun k' => opt_Z_eqb k' k) (distinct ks) =
  match filter (fun k' => opt_Z_eqb k' k) ks with
  | [] => []
  | _ :: _ => [k]
  end.
Proof.
  induction ks as [|k' ks IH]; simpl; [reflexivity|].
  destruct (opt_Z_eqb k' k) eqn:E.
  - apply opt_Z_eqb_eq in E. subst k'.
    destruct (existsb (opt_Z_eqb k) ks) eqn:Ex.
    + rewrite IH.
      destruct (filter (fun k' => opt_Z_eqb k' k) ks) eqn:F; [|reflexivity].
      exfalso. apply existsb_exists in Ex as (y & Hy & Hky).
      apply opt_Z_eqb_eq in Hky. subst y.
      assert (Hin : In k (filter (fun k' => opt_Z_eqb k' k) ks)).
      { apply filter_In. split; [assumption|]. now apply opt_Z_eqb_eq. }
      rewrite F in Hin. contradiction.
    + simpl. rewrite (proj2 (opt_Z_eqb_eq k k) eq_refl).
      f_equal. apply filter_distinct_nil. now apply existsb_key_false.
  - destruct (existsb (opt_Z_eqb k') ks); simpl; [apply IH|].
    rewrite E. apply IH.
Qed.

Lemma group_count_nonneg (appeals : list Appeal.t) (k : option Z) :
  0 <= group_count appeals k.
Proof. unfold group_count. lia. Qed.

Lemma load_nonneg (db : DB) (i : Z) : 0 <= load db i.
Proof. apply group_count_nonneg. Qed.

(** The groups the outer join matches with operator [i]: none when no appeal
    is attributed to it, and otherwise the one row with its load. *)
Lemma matching_groups (appeals : list Appeal.t) (i : Z) :
  filter (fun g => sql_holds (sql_eq (fst g) (Some i))) (load_subquery appeals) =
  if group_count appeals (Some i) =? 0 then []
  else [(Some i, group_count appeals (Some i))].
Proof.
  unfold load_subquery. rewrite filter_map_comm. simpl.
  erewrite filter_ext by (intros k; apply sql_eq_some_r).
  rewrite filter_distinct.
  rewrite filter_map_comm. cbv beta.
  destruct (filter (fun a => opt_Z_eqb (Appeal.operator_id a) (Some i)) appeals)
    as [|a l] eqn:F.
  - replace (group_count appeals (Some i)) with 0; [reflexivity|].
    unfold group_count. now rewrite F.
  - cbn [map].
    destruct (group_count appeals (Some i) =? 0) eqn:E; [|reflexivity].
    apply Z.eqb_eq in E. unfold group_count in E. rewrite F in E.
    cbn [List.length] in E. lia.
Qed.

Lemma flat_map_singleton {A B} (f : A -> list B) (g : A -> B) (l : list A) :
  (forall a, f a = [g a]) -> flat_map f l = map g l.
Proof.
  intros H. induction l as [|a l IH]; simpl; [reflexivity|].
  now rewrite H, IH.
Qed.

Lemma outerjoin_load_eq (db : DB) (rows : list (Operator.t * OperatorSource.t)) :
  outerjoin_load rows (load_subquery (tbl_appeals db)) =
  map (fun row => (row, joined_load db (Operator.id (fst row)))) rows.
Proof.
  unfold outerjoin_load. apply flat_map_singleton. intros row.
  rewrite matching_groups. unfold joined_load, load.
  now destruct (group_count (tbl_appeals db) (Some (Operator.id (fst row))) =? 0).
Qed.

(** ** The candidates query, row by row *)

Lemma sql_holds_and (p q : option bool) :
  sql_holds (sql_and p q) = sql_holds p && sql_holds q.
Proof. destruct p as [[|]|], q as [[|]|]; reflexivity. Qed.

Lemma sql_holds_or (p q : option bool) :
  sql_holds (sql_or p q) = sql_holds p || sql_holds q.
Proof. destruct p as [[|]|], q as [[|]|]; reflexivity. Qed.

Lemma filter_filter {A} (f g : A -> bool) (l : list A) :
  filter f (filter g l) = filter (fun a => g a && f a) l.
Proof.
  induction l as [|a l IH]; simpl; [reflexivity|].
  destruct (g a); simpl; [destruct (f a)|]; now rewrite IH.
Qed.

Lemma filter_false {A} (l : list A) : filter (fun _ => false) l = [].
Proof. induction l; simpl; auto. Qed.

Lemma candidate_filter_eq (db : DB) (s : Z) (op : Operator.t) (os : OperatorSource.t) :
  candidate_filter s (op, os, joined_load db (Operator.id op)) =
  (OperatorSource.source_id os =? s) && operator_passes db op.
Proof.
  unfold candidate_filter. rewrite sql_holds_and. fold (operator_passes db op).
  now destruct (OperatorSource.source_id os =? s).
Qed.

Lemma in_join_operator_sources (ops : list Operator.t) (oss : list OperatorSource.t)
    (op : Operator.t) (os : OperatorSource.t) :
  In (op, os) (join_operator_sources ops oss) <->
  In os oss /\ In op ops /\ Operator.id op = OperatorSource.operator_id os.
Proof.
  unfold join_operator_sources. rewrite in_flat_map. split.
  - intros (os' & Hos & Hin). apply in_map_iff in Hin as (op' & Heq & Hop).
    injection Heq as -> ->. apply filter_In in Hop as [Hop Hid].
    apply Z.eqb_eq in Hid. auto.
  - intros (Hos & Hop & Hid). exists os. split; [assumption|].
    apply in_map_iff. exists op. split; [reflexivity|].
    apply filter_In. split; [assumption|]. now apply Z.eqb_eq.
Qed.

Lemma sql_holds_is_true (b : option bool) :
  sql_holds (sql_is_true b) = true <-> b = Some true.
Proof. destruct b as [[|]|]; simpl; split; congruence. Qed.

(** The capacity test on the joined load: no appeal at all, or fewer than a
    capacity that is set. *)
Lemma capacity_test_iff (db : DB) (i : Z) (max_load : option Z) :
  sql_holds (sql_lt (joined_load db i) max_load) ||
  sql_holds (sql_is_null (joined_load db i)) = true <->
  load db i = 0 \/ exists m, max_load = Some m /\ load db i < m.
Proof.
  unfold joined_load. pose proof (load_nonneg db i) as Hl.
  destruct (load db i =? 0) eqn:E.
  - apply Z.eqb_eq in E. simpl. split; auto.
  - apply Z.eqb_neq in E.
    destruct max_load as [m|]; simpl; rewrite ?orb_false_r.
    + destruct (load db i <? m) eqn:L.
      * apply Z.ltb_lt in L. split; [|reflexivity].
        intros _. right. now exists m.
      * apply Z.ltb_ge in L. split; [discriminate|].
        intros [H | (m' & Hm & H)]; [contradiction|].
        injection Hm as <-. lia.
    + split; [discriminate|].
      intros [H | (m' & Hm & _)]; [contradiction|discriminate].
Qed.

Lemma operator_passes_iff (db : DB) (op : Operator.t) :
  operator_passes db op = true <->
  Operator.is_active op = Some true /\
  (load db (Operator.id op) = 0 \/
   exists m, Operator.max_load op = Some m /\ load db (Operator.id op) < m).
Proof.
  unfold operator_passes.
  rewrite sql_holds_and, sql_holds_or, andb_true_iff.
  now rewrite sql_holds_is_true, capacity_test_iff.
Qed.

Lemma linked_iff (s : Z) (op : Operator.t) (os : OperatorSource.t) :
  linked s op os = true <->
  OperatorSource.operator_id os = Operator.id op /\
  OperatorSource.source_id os = s.
Proof.
  unfold linked. rewrite andb_true_iff, !Z.eqb_eq. intuition congruence.
Qed.

(** The rows of the SELECT: the affinity rows for the source whose operator
    passes, each with that operator. *)
Lemma in_candidate_rows (db : DB) (s : Z) (op : Operator.t) (w : Z) :
  In (op, w) (candidate_rows db s) <->
  In op (tbl_operators db) /\
  operator_passes db op = true /\
  exists os, In os (tbl_operator_sources db) /\
             linked s op os = true /\ OperatorSource.weight os = w.
Proof.
  unfold candidate_rows. rewrite outerjoin_load_eq, filter_map_comm, map_map.
  rewrite in_map_iff. split.
  - intros ([op' os] & Heq & Hin). simpl in Heq. injection Heq as -> <-.
    apply filter_In in Hin as [Hin Hf]. cbn [fst] in Hf.
    rewrite candidate_filter_eq in Hf. apply andb_true_iff in Hf as [Hs Hpass].
    apply in_join_operator_sources in Hin as (Hos & Hop & Hid).
    repeat split; try assumption. exists os. repeat split; [assumption|].
    unfold linked. rewrite Hs, andb_true_r. now apply Z.eqb_eq.
  - intros (Hop & Hpass & os & Hos & Hl & Hw).
    unfold linked in Hl. apply andb_true_iff in Hl as [Hid Hs].
    exists (op, os). split; [simpl; now rewrite Hw|].
    apply filter_In. split.
    + apply in_join_operator_sources. repeat split; try assumption.
      now apply Z.eqb_eq.
    + cbn [fst]. rewrite candidate_filter_eq, Hs, Hpass. reflexivity.
Qed.

Lemma opt_bool_eqb_eq (a b : option bool) : opt_bool_eqb a b = true <-> a = b.
Proof.
  destruct a as [[|]|], b as [[|]|]; simpl; split; intros H;
    try discriminate; reflexivity.
Qed.

Lemma operator_eqb_eq (a b : Operator.t) : operator_eqb a b = true <-> a = b.
Proof.
  unfold operator_eqb. rewrite !andb_true_iff, Z.eqb_eq, String.eqb_eq,
    opt_bool_eqb_eq, opt_Z_eqb_eq.
  destruct a, b; simpl. split.
  - intros [[[-> ->] ->] ->]. reflexivity.
  - intros H. injection H as -> -> -> ->. auto.
Qed.

Lemma same_row_eq (a b : Operator.t * Z) : same_row a b = true <-> a = b.
Proof.
  unfold same_row. rewrite andb_true_iff, operator_eqb_eq, Z.eqb_eq.
  destruct a, b; simpl. split.
  - intros [-> ->]. reflexivity.
  - intros H. injection H as -> ->. auto.
Qed.

Lemma seen_iff (r : Operator.t * Z) (seen : list (Operator.t * Z)) :
  existsb (same_row r) seen = true <-> In r seen.
Proof.
  rewrite existsb_exists. split.
  - intros (r' & Hin & Heq). apply same_row_eq in Heq. now subst.
  - intros Hin. exists r. split; [assumption|]. now apply same_row_eq.
Qed.

(** [unique_list] keeps the rows, drops the repetitions. *)
Lemma in_unique_list (seen rows : list (Operator.t * Z)) (r : Operator.t * Z) :
  In r (unique_list seen rows) <-> In r rows /\ ~ In r seen.
Proof.
  revert seen. induction rows as [|r' rows IH]; intros seen; simpl; [tauto|].
  destruct (existsb (same_row r') seen) eqn:E.
  - apply seen_iff in E. rewrite IH. split.
    + intros [Hin Hnot]. auto.
    + intros [[-> | Hin] Hnot]; [contradiction|auto].
  - assert (Hnot' : ~ In r' seen)
      by (intros H; apply seen_iff in H; congruence).
    simpl. rewrite IH. simpl. split.
    + intros [<- | [Hin Hnot]]; [auto|]. split; [auto|]. intros H. apply Hnot. now right.
    + intros [[<- | Hin] Hnot]; [now left|].
      destruct (same_row r' r) eqn:Er.
      * apply same_row_eq in Er. now left.
      * right. split; [assumption|]. intros [-> | H]; [|contradiction].
        rewrite (proj2 (same_row_eq r r) eq_refl) in Er. discriminate.
Qed.

Lemma unique_list_NoDup (seen rows : list (Operator.t * Z)) :
  NoDup (unique_list seen rows).
Proof.
  revert seen. induction rows as [|r rows IH]; intros seen; simpl; [constructor|].
  destruct (existsb (same_row r) seen); [apply IH|].
  constructor; [|apply IH].
  intros Hin. apply in_unique_list in Hin as [_ Hnot]. apply Hnot. now left.
Qed.

(** Membership in the candidate rows. *)
Lemma in_candidates (db : DB) (s : Z) (op : Operator.t) (w : Z) :
  In (op, w) (candidates db s) <->
  In op (tbl_operators db) /\
  operator_passes db op = true /\
  exists os, In os (tbl_operator_sources db) /\
             linked s op os = true /\ OperatorSource.weight os = w.
Proof.
  unfold candidates. rewrite in_unique_list, in_candidate_rows. simpl. tauto.
Qed.

(** ** The selection step *)

Lemma positive_pairs_in (candidates : list (Operator.t * Z)) (o w : Z) :
  In (o, w) (positive_pairs candidates) <->
  exists op, In (op, w) candidates /\ Operator.id op = o /\ 0 < w.
Proof.
  unfold positive_pairs. rewrite in_map_iff. split.
  - intros ([op w'] & Heq & Hin). simpl in Heq. injection Heq as <- <-.
    apply filter_In in Hin as [Hin Hw]. simpl in Hw.
    exists op. repeat split; [assumption|lia].
  - intros (op & Hin & <- & Hw). exists (op, w). split; [reflexivity|].
    apply filter_In. split; [assumption|]. simpl. lia.
Qed.

Lemma select_operator_nil (x : Z) : select_operator [] x = inr None.
Proof. reflexivity. Qed.

(** Candidates, none of them with a positive weight: unpacking the empty
    [zip] raises. *)
Lemma select_operator_raises (candidates : list (Operator.t * Z)) (x : Z) :
  candidates <> [] ->
  positive_pairs candidates = [] ->
  select_operator candidates x = inl ValueError.
Proof.
  intros Hne Hpos. unfold select_operator.
  destruct candidates as [|c cs]; [contradiction|].
  now rewrite Hpos.
Qed.

Lemma zip_star_unpack (rows : list (Z * Z)) :
  rows <> [] ->
  unpack2 (zip_star rows) = inr (map fst rows, map snd rows).
Proof. destruct rows; [contradiction|reflexivity]. Qed.

Lemma getitem_in {A} (xs : list A) (i : nat) (a : A) :
  getitem xs i = inr a -> In a xs.
Proof.
  unfold getitem. destruct (nth_error xs i) eqn:E; [|discriminate].
  intros H. injection H as <-. eapply nth_error_In. eassumption.
Qed.

(** Whoever is selected comes from a candidate row with a positive weight. *)
Lemma select_operator_inv (candidates : list (Operator.t * Z)) (x o : Z) :
  select_operator candidates x = inr (Some o) ->
  exists op w, In (op, w) candidates /\ Operator.id op = o /\ 0 < w.
Proof.
  unfold select_operator. destruct candidates as [|c cs]; [discriminate|].
  destruct (positive_pairs (c :: cs)) as [|p ps] eqn:Hp; [discriminate|].
  rewrite zip_star_unpack by discriminate. cbn [and_then].
  destruct (sum (map snd (p :: ps)) >? 0); [|discriminate].
  destruct (choices _ _ x) as [e|cw]; [discriminate|]. cbn [and_then].
  destruct (index _ cw) as [e|i]; [discriminate|]. cbn [and_then].
  destruct (getitem _ i) as [e|o'] eqn:G; [discriminate|]. cbn [and_then].
  intros H. injection H as ->.
  apply getitem_in in G. apply in_map_iff in G as ([o' w] & Ho & Hin).
  simpl in Ho. subst o'. rewrite <- Hp in Hin.
  apply positive_pairs_in in Hin as (op & Hin & Hid & Hw). now exists op, w.
Qed.

(** ** The stages of [create_appeal] *)

Lemma find_or_create_lead_run (e : string) (db : DB) :
  find_or_create_lead e db = (inr (resolved_lead e db), after_lead e db).
Proof.
  unfold find_or_create_lead, resolved_lead, after_lead. rewrite bind_run.
  unfold get. now destruct (find _ (tbl_leads db)).
Qed.

Lemma after_lead_frame (e : string) (db : DB) :
  tbl_operators (after_lead e db) = tbl_operators db /\
  tbl_sources (after_lead e db) = tbl_sources db /\
  tbl_operator_sources (after_lead e db) = tbl_operator_sources db /\
  tbl_appeals (after_lead e db) = tbl_appeals db.
Proof. unfold after_lead. now destruct (find _ (tbl_leads db)). Qed.

Lemma candidates_after_lead (e : string) (db : DB) (s : Z) :
  candidates (after_lead e db) s = candidates db s.
Proof.
  destruct (after_lead_frame e db) as (Ho & _ & Hos & Ha).
  unfold candidates, candidate_rows. now rewrite Ho, Hos, Ha.
Qed.

(** The whole call: the lead is resolved first and stays whatever happens
    next; the appeal is inserted only when the selection returns. *)
Lemma create_appeal_run (a : AppealCreate.t) (x : Z) (now : string) (db : DB) :
  create_appeal a x now db =
  match select_operator (candidates db (AppealCreate.source_id a)) x with
  | inl e => (inl e, after_lead (AppealCreate.external_id a) db)
  | inr o =>
      (inr (new_appeal a now db o),
       insert_appeal (new_appeal a now db o)
                     (after_lead (AppealCreate.external_id a) db))
  end.
Proof.
  unfold create_appeal. rewrite bind_run, find_or_create_lead_run, bind_run.
  unfold choose_operator. rewrite bind_run. unfold get, lift.
  rewrite candidates_after_lead.
  destruct (select_operator _ x) as [e|o]; [reflexivity|].
  unfold store_appeal, new_appeal. rewrite bind_run. unfold get.
  destruct (after_lead_frame (AppealCreate.external_id a) db) as (_ & _ & _ & Ha).
  now rewrite Ha.
Qed.

(** The database a call leaves: the administrative tables as they were, the
    leads of the first stage, and the appeals with at most one row added. *)
Lemma create_appeal_db (a : AppealCreate.t) (x : Z) (now : string) (db : DB) :
  exists added,
    snd (create_appeal a x now db) =
    mkDB (tbl_operators db) (tbl_sources db) (tbl_operator_sources db)
         (tbl_leads (after_lead (AppealCreate.external_id a) db))
         (tbl_appeals db ++ added).
Proof.
  rewrite create_appeal_run.
  destruct (after_lead_frame (AppealCreate.external_id a) db) as (Ho & Hs & Hos & Ha).
  destruct (select_operator _ x) as [e|o]; cbn [snd].
  - exists []. rewrite app_nil_r, <- Ho, <- Hs, <- Hos, <- Ha.
    now destruct (after_lead (AppealCreate.external_id a) db).
  - exists [new_appeal a now db o]. unfold insert_appeal.
    now rewrite Ho, Hs, Hos, Ha.
Qed.

(** ** The driver's check *)

Lemma bind_parameter_run (n : Z) (db : DB) :
  bind_parameter n db =
  if sqlite_integer n then (inr tt, db) else (inl OverflowError, db).
Proof. unfold bind_parameter. now destruct (sqlite_integer n). Qed.

(** With a [source_id] SQLite can hold, the call is the one of the section on
    the endpoints; with another, it raises once the lead is resolved. *)
Lemma driver_create_appeal_run (a : AppealCreate.t) (x : Z) (now : string) (db : DB) :
  Driver.create_appeal a x now db =
  if sqlite_integer (AppealCreate.source_id a)
  then create_appeal a x now db
  else (inl OverflowError, after_lead (AppealCreate.external_id a) db).
Proof.
  unfold Driver.create_appeal, create_appeal.
  rewrite !bind_run, find_or_create_lead_run, !bind_run, bind_parameter_run.
  now destruct (sqlite_integer (AppealCreate.source_id a)).
Qed.

Lemma driver_list_operator_sources_run (source_id : option Z) (db : DB) :
  Driver.list_operator_sources source_id db =
  match source_id with
  | Some n =>
      if negb (n =? 0) && negb (sqlite_integer n) then (inl OverflowError, db)
      else list_operator_sources source_id db
  | None => list_operator_sources source_id db
  end.
Proof.
  unfold Driver.list_operator_sources. rewrite bind_run.
  destruct source_id as [n|]; [|reflexivity].
  unfold truthy. destruct (n =? 0); simpl; [reflexivity|].
  rewrite bind_parameter_run. now destruct (sqlite_integer n).
Qed.

(** ** Zero weights (C1) *)

Lemma positive_pairs_all_zero (candidates : list (Operator.t * Z)) :
  (forall op w, In (op, w) candidates -> w = 0) ->
  positive_pairs candidates = [].
Proof.
  intros H. destruct (positive_pairs candidates) as [|[o w] ps] eqn:E;
    [reflexivity|].
  assert (Hin : In (o, w) (positive_pairs candidates)) by (rewrite E; now left).
  apply positive_pairs_in in Hin as (op & Hin & _ & Hw).
  apply H in Hin. lia.
Qed.

(** C1 (the code departs from the claim): when the candidate rows of the
    source are not empty and every one of them has weight 0, [create_appeal]
    does not return an unassigned appeal: it raises [ValueError] at the
    unpacking of the empty [zip], for every ticket, and stores no appeal. *)
Theorem create_appeal_zero_weights_raises
    (db : DB) (a : AppealCreate.t) (x : Z) (now : string) :
  candidates db (AppealCreate.source_id a) <> [] ->
  (forall op w, In (op, w) (candidates db (AppealCreate.source_id a)) -> w = 0) ->
  fst (create_appeal a x now db) = inl ValueError /\
  tbl_appeals (snd (create_appeal a x now db)) = tbl_appeals db.
Proof.
  intros Hne Hzero. rewrite create_appeal_run.
  rewrite select_operator_raises
    by (try assumption; now apply positive_pairs_all_zero).
  split; [reflexivity|]. apply after_lead_frame.
Qed.

(** Scenario B: O3 with weight 0 is the only link of the source. *)
Lemma create_appeal_zero_weights_raises_scenario_B :
  candidates scenario_zero_weight 1 = [(the_operator "O3" 5, 0)] /\
  fst (create_appeal (an_appeal "lead-1" 1) 0 "2024-01-01T00:00:00"
                     scenario_zero_weight) = inl ValueError /\
  tbl_appeals (snd (create_appeal (an_appeal "lead-1" 1) 0 "2024-01-01T00:00:00"
                                  scenario_zero_weight)) = [].
Proof.
  split; [reflexivity|].
  apply (create_appeal_zero_weights_raises scenario_zero_weight
           (an_appeal "lead-1" 1) 0 "2024-01-01T00:00:00").
  - discriminate.
  - intros op w [H | []]. now injection H as _ <-.
Defined.

(** ** Sources without affinity rows (C6) *)

Lemma candidates_no_affinity (db : DB) (s : Z) :
  (forall os, In os (tbl_operator_sources db) -> OperatorSource.source_id os <> s) ->
  candidates db s = [].
Proof.
  intros H. destruct (candidates db s) as [|[op w] cs] eqn:E; [reflexivity|].
  assert (Hin : In (op, w) (candidates db s)) by (rewrite E; now left).
  apply in_candidates in Hin as (_ & _ & os & Hos & Hl & _).
  apply linked_iff in Hl as [_ Hs]. now apply H in Hos.
Qed.

(** C6 (as stated, refuted): [create_appeal] never looks at [tbl_sources].
    With no source in the database at all, an affinity row that names source
    7 makes the candidate rows of source 7 non-empty, and the appeal is
    assigned to operator 1.  And a source identifier that no row names may be
    one the driver cannot bind: with 2^63 the candidates query raises
    [OverflowError], after the lead is stored. *)
Lemma unknown_source_is_assigned :
  (tbl_sources scenario_unknown_source = [] /\
   candidates scenario_unknown_source 7 = [(the_operator "O" 5, 1)] /\
   exists r, fst (Driver.create_appeal (an_appeal "lead-1" 7) 0
                                       "2024-01-01T00:00:00"
                                       scenario_unknown_source) = inr r /\
             Appeal.operator_id r = Some 1) /\
  (candidates scenario_unknown_source (2 ^ 63) = [] /\
   Driver.create_appeal (an_appeal "lead-1" (2 ^ 63)) 0 "2024-01-01T00:00:00"
                        scenario_unknown_source
   = (inl OverflowError,
      insert_lead (Lead.mk 1 "lead-1") scenario_unknown_source)).
Proof.
  split.
  - split; [reflexivity|]. split; [reflexivity|].
    eexists. split; reflexivity.
  - split; reflexivity.
Qed.

(** C6 (amended): for every source identifier that no affinity row names,
    known source or not, the candidate rows are empty; whenever the candidate
    rows are empty and the identifier is one SQLite can hold, [create_appeal]
    raises nothing and stores and returns an appeal whose operator is null;
    and with an identifier SQLite cannot hold it raises [OverflowError] and
    stores no appeal, the lead being stored already. *)
Theorem create_appeal_no_affinity_unassigned
    (db : DB) (a : AppealCreate.t) (x : Z) (now : string) :
  ((forall os, In os (tbl_operator_sources db) ->
               OperatorSource.source_id os <> AppealCreate.source_id a) ->
   candidates db (AppealCreate.source_id a) = []) /\
  (sqlite_integer (AppealCreate.source_id a) = true ->
   candidates db (AppealCreate.source_id a) = [] ->
   Driver.create_appeal a x now db =
     (inr (new_appeal a now db None),
      insert_appeal (new_appeal a now db None)
                    (after_lead (AppealCreate.external_id a) db)) /\
   Appeal.operator_id (new_appeal a now db None) = None) /\
  (sqlite_integer (AppealCreate.source_id a) = false ->
   Driver.create_appeal a x now db =
     (inl OverflowError, after_lead (AppealCreate.external_id a) db) /\
   tbl_appeals (after_lead (AppealCreate.external_id a) db) = tbl_appeals db).
Proof.
  split; [apply candidates_no_affinity|]. split.
  - intros Hint Hnil.
    rewrite driver_create_appeal_run, Hint, create_appeal_run, Hnil. now split.
  - intros Hint. rewrite driver_create_appeal_run, Hint. split; [reflexivity|].
    apply after_lead_frame.
Qed.

Lemma create_appeal_no_affinity_unassigned_example :
  (candidates scenario_zero_weight 2 = [] /\
   fst (Driver.create_appeal (an_appeal "lead-1" 2) 0 "2024-01-01T00:00:00"
                             scenario_zero_weight)
   = inr (Appeal.mk 1 1 2 None "2024-01-01T00:00:00" None)) /\
  fst (Driver.create_appeal (an_appeal "lead-1" (- 2 ^ 63 - 1)) 0
                            "2024-01-01T00:00:00" scenario_zero_weight)
  = inl OverflowError.
Proof.
  split.
  - pose proof (create_appeal_no_affinity_unassigned scenario_zero_weight
                  (an_appeal "lead-1" 2) 0 "2024-01-01T00:00:00") as (H1 & H2 & _).
    assert (Hnil : candidates scenario_zero_weight (AppealCreate.source_id
                                                     (an_appeal "lead-1" 2)) = []).
    { apply H1. intros os [<- | []]. discriminate. }
    split; [exact Hnil|].
    destruct (H2 eq_refl Hnil) as [Hrun _]. rewrite Hrun. reflexivity.
  - pose proof (create_appeal_no_affinity_unassigned scenario_zero_weight
                  (an_appeal "lead-1" (- 2 ^ 63 - 1)) 0 "2024-01-01T00:00:00")
      as (_ & _ & H3).
    destruct (H3 eq_refl) as [Hrun _]. rewrite Hrun. reflexivity.
Defined.

(** ** The frame of [create_appeal] (C8) *)

(** C8: whatever its arguments and whether it returns or raises,
    [create_appeal] leaves [tbl_operators], [tbl_sources] and
    [tbl_operator_sources] exactly as they were; only leads and appeals are
    inserted. *)
Theorem create_appeal_frame (a : AppealCreate.t) (x : Z) (now : string) (db : DB) :
  tbl_operators (snd (create_appeal a x now db)) = tbl_operators db /\
  tbl_sources (snd (create_appeal a x now db)) = tbl_sources db /\
  tbl_operator_sources (snd (create_appeal a x now db)) = tbl_operator_sources db.
Proof.
  rewrite create_appeal_run.
  destruct (after_lead_frame (AppealCreate.external_id a) db) as (Ho & Hs & Hos & _).
  destruct (select_operator _ x); simpl; auto.
Qed.

(** ** Listing affinity rows (C10) *)

(** C10 (as stated, refuted): the non-zero [source_id] 2^63 does not filter
    the rows to those of that source: the driver cannot bind it and the
    request raises [OverflowError]. *)
Lemma list_operator_sources_overflow :
  2 ^ 63 <> 0 /\
  Driver.list_operator_sources (Some (2 ^ 63)) scenario_equal_weights
  = (inl OverflowError, scenario_equal_weights).
Proof. split; [discriminate|reflexivity]. Qed.

(** C10 (amended): [list_operator_sources] with [source_id = 0] returns every
    row of [tbl_operator_sources], exactly as when the parameter is omitted;
    with any other integer SQLite can hold it returns the rows whose
    [source_id] is that integer, in table order; with an integer SQLite
    cannot hold it raises [OverflowError]. *)
Theorem list_operator_sources_zero (db : DB) (n : Z) :
  Driver.list_operator_sources (Some 0) db = (inr (tbl_operator_sources db), db) /\
  Driver.list_operator_sources (Some 0) db = Driver.list_operator_sources None db /\
  (n <> 0 -> sqlite_integer n = true ->
   Driver.list_operator_sources (Some n) db =
     (inr (filter (fun os => OperatorSource.source_id os =? n)
                  (tbl_operator_sources db)), db)) /\
  (sqlite_integer n = false ->
   Driver.list_operator_sources (Some n) db = (inl OverflowError, db)).
Proof.
  split; [reflexivity|]. split; [reflexivity|]. split.
  - intros Hn Hint. rewrite driver_list_operator_sources_run, Hint, andb_false_r.
    unfold list_operator_sources. rewrite bind_run. unfold get, ret.
    unfold truthy. apply Z.eqb_neq in Hn. rewrite Hn. cbn [negb].
    do 2 f_equal. apply filter_ext. intros os. simpl.
    now destruct (OperatorSource.source_id os =? n).
  - intros Hint. rewrite driver_list_operator_sources_run, Hint.
    destruct (n =? 0) eqn:E; [|reflexivity].
    apply Z.eqb_eq in E. subst n. discriminate.
Qed.

Lemma list_operator_sources_zero_example :
  fst (Driver.list_operator_sources (Some 0) scenario_equal_weights)
    = inr [OperatorSource.mk 1 1 1 3; OperatorSource.mk 2 2 1 3] /\
  fst (Driver.list_operator_sources (Some 2) scenario_equal_weights) = inr [] /\
  fst (Driver.list_operator_sources (Some 1) scenario_equal_weights)
    = inr [OperatorSource.mk 1 1 1 3; OperatorSource.mk 2 2 1 3] /\
  fst (Driver.list_operator_sources (Some (- 2 ^ 63 - 1)) scenario_equal_weights)
    = inl OverflowError.
Proof.
  pose proof (list_operator_sources_zero scenario_equal_weights 2) as (H0 & _ & H2 & _).
  pose proof (list_operator_sources_zero scenario_equal_weights 1) as (_ & _ & H1 & _).
  pose proof (list_operator_sources_zero scenario_equal_weights (- 2 ^ 63 - 1))
    as (_ & _ & _ & H3).
  rewrite H0, H2, H1, H3 by (try discriminate; reflexivity). repeat split.
Defined.

(** ** Load never goes down *)

Lemma group_count_app (l1 l2 : list Appeal.t) (k : option Z) :
  group_count (l1 ++ l2) k = group_count l1 k + group_count l2 k.
Proof. unfold group_count. rewrite filter_app, length_app. lia. Qed.

(** Every request leaves the appeals it found and at most appends to them. *)
Lemma handle_appeals (r : request) (db : DB) :
  exists added, tbl_appeals (handle r db) = tbl_appeals db ++ added.
Proof.
  destruct r as [o| |i u|s| |os|s|a x now| |]; simpl;
    try (exists []; now rewrite app_nil_r).
  - unfold update_operator. rewrite bind_run. unfold get.
    destruct (find _ (tbl_operators db));
      exists []; now rewrite app_nil_r.
  - rewrite create_appeal_run.
    destruct (after_lead_frame (AppealCreate.external_id a) db) as (_ & _ & _ & Ha).
    destruct (select_operator _ x) as [e|o]; simpl.
    + exists []. now rewrite app_nil_r.
    + exists [new_appeal a now db o]. now rewrite Ha.
Qed.

Lemma load_handle (r : request) (db : DB) (i : Z) :
  load db i <= load (handle r db) i.
Proof.
  destruct (handle_appeals r db) as [added H]. unfold load.
  rewrite H, group_count_app.
  pose proof (group_count_nonneg added (Some i)). lia.
Qed.

Lemma run_cons (r : request) (rs : list request) (db : DB) :
  run (r :: rs) db = run rs (handle r db).
Proof. reflexivity. Qed.

(** No sequence of requests lowers the load of any operator. *)
Lemma load_run (rs : list request) (db : DB) (i : Z) :
  load db i <= load (run rs db) i.
Proof.
  revert db. induction rs as [|r rs IH]; intros db; [apply Z.le_refl|].
  rewrite run_cons. pose proof (load_handle r db i). specialize (IH (handle r db)).
  lia.
Qed.

(** A run of [create_appeal] calls leaves the three administrative tables. *)
Lemma run_create_appeals_frame (rs : list request) (db : DB) :
  Forall is_create_appeal rs ->
  tbl_operators (run rs db) = tbl_operators db /\
  tbl_sources (run rs db) = tbl_sources db /\
  tbl_operator_sources (run rs db) = tbl_operator_sources db.
Proof.
  intros H. revert db. induction H as [|r rs Hr _ IH]; intros db; [now repeat split|].
  rewrite run_cons. destruct (IH (handle r db)) as (Ho & Hs & Hos).
  destruct r; try contradiction. simpl in *.
  destruct (create_appeal_db appeal x now db) as [added Hdb].
  rewrite Ho, Hs, Hos, Hdb. now repeat split.
Qed.

(** ** Eligibility (C3) *)

Lemma in_map_fst_candidates (db : DB) (s : Z) (op : Operator.t) :
  In op (map fst (candidates db s)) <->
  In op (tbl_operators db) /\ query_eligible db s op.
Proof.
  rewrite in_map_iff. unfold query_eligible, has_affinity. split.
  - intros ([op' w] & Heq & Hin). simpl in Heq. subst op'.
    apply in_candidates in Hin as (Hop & Ha & os & Hos & Hl & _).
    apply operator_passes_iff in Ha as [Hact Hcap]. apply linked_iff in Hl as [Hl1 Hl2].
    repeat split; try assumption. now exists os.
  - intros (Hop & Hact & (os & Hos & Hl1 & Hl2) & Hcap).
    exists (op, OperatorSource.weight os). split; [reflexivity|].
    apply in_candidates. repeat split; [assumption|now apply operator_passes_iff|].
    exists os. repeat split; [assumption|now apply linked_iff].
Qed.

Lemma NoDup_map_inj {A B} (f : A -> B) (l : list A) (a b : A) :
  NoDup (map f l) -> In a l -> In b l -> f a = f b -> a = b.
Proof.
  induction l as [|c l IH]; simpl; [contradiction|].
  intros Hnd Ha Hb Hf. inversion Hnd as [|? ? Hnotin Hnd']; subst.
  destruct Ha as [-> | Ha], Hb as [-> | Hb]; auto.
  - exfalso. apply Hnotin. rewrite Hf. now apply in_map.
  - exfalso. apply Hnotin. rewrite <- Hf. now apply in_map.
Qed.

(** The operator of a stored appeal comes from a candidate row. *)
Lemma assigned_operator_is_candidate (db : DB) (a : AppealCreate.t) (x : Z)
    (now : string) (r : Appeal.t) (i : Z) :
  fst (create_appeal a x now db) = inr r ->
  Appeal.operator_id r = Some i ->
  exists op w, In (op, w) (candidates db (AppealCreate.source_id a)) /\
               Operator.id op = i /\ 0 < w.
Proof.
  rewrite create_appeal_run.
  destruct (select_operator _ x) as [e|o] eqn:E; simpl; [discriminate|].
  intros H Hi. injection H as <-. simpl in Hi. subst o.
  now apply select_operator_inv in E.
Qed.

(** C3 (as stated, refuted): an active operator with [max_load = 0], linked to
    the source and without appeals, has load 0, which is not below its
    [max_load]; the query returns it all the same. *)
Lemma zero_capacity_operator_is_candidate :
  In (the_operator "O" 0) (tbl_operators scenario_zero_capacity) /\
  In (the_operator "O" 0) (map fst (candidates scenario_zero_capacity 1)) /\
  ~ spec_eligible scenario_zero_capacity 1 (the_operator "O" 0).
Proof.
  split; [now left|]. split; [now left|].
  intros (_ & _ & m & Hm & Hlt). injection Hm as <-.
  vm_compute in Hlt. discriminate.
Qed.

(** C3 (amended): the candidate rows contain exactly the operators of the
    table that are active, have an affinity row for the source, and either
    have no appeal attributed to them or have a load below their [max_load];
    every affinity row of such an operator for the source gives a candidate
    row, whatever its weight, 0 included; and an operator that is not active
    is never the operator of the appeal [create_appeal] returns, whatever its
    weight (identifiers being unique, as the primary key makes them). *)
Theorem candidates_exactly_query_eligible (db : DB) (s : Z) (op : Operator.t) :
  (In op (map fst (candidates db s)) <->
   In op (tbl_operators db) /\ query_eligible db s op) /\
  (forall os, In op (tbl_operators db) -> query_eligible db s op ->
     In os (tbl_operator_sources db) ->
     OperatorSource.operator_id os = Operator.id op ->
     OperatorSource.source_id os = s ->
     In (op, OperatorSource.weight os) (candidates db s)) /\
  (forall a x now r,
     NoDup (map Operator.id (tbl_operators db)) ->
     In op (tbl_operators db) ->
     Operator.is_active op <> Some true ->
     fst (create_appeal a x now db) = inr r ->
     Appeal.operator_id r <> Some (Operator.id op)).
Proof.
  split; [apply in_map_fst_candidates|]. split.
  - intros os Hop (Hact & _ & Hcap) Hos Hl1 Hl2. apply in_candidates.
    repeat split; [assumption|now apply operator_passes_iff|].
    exists os. repeat split; [assumption|now apply linked_iff].
  - intros a x now r Hnd Hop Hinactive Hrun Hassigned.
    destruct (assigned_operator_is_candidate _ _ _ _ _ _ Hrun Hassigned)
      as (op' & w & Hin & Hid & _).
    apply in_candidates in Hin as (Hop' & Ha & _).
    apply operator_passes_iff in Ha as [Hact _].
    assert (op' = op) by (eapply NoDup_map_inj; eassumption).
    subst op'. contradiction.
Qed.

(** Scenario C and a weight-0 row: O4, inactive with weight 10, is not a
    candidate and is not assigned; O3, active with weight 0, is a candidate. *)
Lemma candidates_exactly_query_eligible_scenarios :
  ~ In (Operator.mk 1 "O4" (Some false) (Some 5))
       (map fst (candidates scenario_inactive 1)) /\
  In (the_operator "O3" 5, 0) (candidates scenario_zero_weight 1) /\
  (forall r, fst (create_appeal (an_appeal "lead-1" 1) 0 "2024-01-01T00:00:00"
                                scenario_inactive) = inr r ->
             Appeal.operator_id r <> Some 1).
Proof.
  split; [|split].
  - intros H.
    apply (candidates_exactly_query_eligible scenario_inactive 1) in H
      as (_ & Hact & _).
    discriminate.
  - apply (proj1 (proj2 (candidates_exactly_query_eligible scenario_zero_weight 1
                           (the_operator "O3" 5)))
             (OperatorSource.mk 1 1 1 0)).
    + now left.
    + split; [reflexivity|]. split.
      * exists (OperatorSource.mk 1 1 1 0). split; [now left|]. now split.
      * now left.
    + now left.
    + reflexivity.
    + reflexivity.
  - intros r Hr.
    apply (proj2 (proj2 (candidates_exactly_query_eligible scenario_inactive 1
                           (Operator.mk 1 "O4" (Some false) (Some 5))))
             (an_appeal "lead-1" 1) 0 "2024-01-01T00:00:00" r).
    + simpl. constructor; [intros []|constructor].
    + now left.
    + discriminate.
    + exact Hr.
Defined.

(** ** An operator at capacity (C4) *)

Lemma full_row_not_candidate (db : DB) (s : Z) (op : Operator.t) (w m : Z) :
  Operator.max_load op = Some m -> 0 < m -> m <= load db (Operator.id op) ->
  ~ In (op, w) (candidates db s).
Proof.
  intros Hm Hpos Hfull Hin.
  apply in_candidates in Hin as (_ & Ha & _).
  apply operator_passes_iff in Ha as [_ [H0 | (m' & Hm' & Hlt)]]; [lia|].
  rewrite Hm in Hm'. injection Hm' as <-. lia.
Qed.

Lemma filter_removed_lt {A} (f g : A -> bool) (l : list A) (a : A) :
  In a l -> f a = true -> g a = false ->
  (List.length (filter f (filter g l)) < List.length (filter f l))%nat.
Proof.
  intros Hin Hf Hg.
  assert (Hle : forall l', (List.length (filter f (filter g l'))
                            <= List.length (filter f l'))%nat).
  { induction l' as [|b l' IH]; simpl; [lia|].
    destruct (g b); simpl; destruct (f b); simpl; lia. }
  induction l as [|b l IH]; [contradiction|]. simpl.
  destruct Hin as [-> | Hin].
  - rewrite Hg, Hf. simpl. specialize (Hle l). lia.
  - specialize (IH Hin). destruct (g b); simpl; destruct (f b); simpl; lia.
Qed.

Lemma load_held (db : DB) (a : Appeal.t) (i : Z) :
  In a (tbl_appeals db) -> Appeal.operator_id a = Some i -> 0 < load db i.
Proof.
  intros Hin Hop. unfold load, group_count.
  destruct (filter _ (tbl_appeals db)) as [|r l] eqn:E; [|simpl; lia].
  assert (H : In a (filter (fun r => opt_Z_eqb (Appeal.operator_id r) (Some i))
                           (tbl_appeals db))).
  { apply filter_In. split; [assumption|]. now apply opt_Z_eqb_eq. }
  rewrite E in H. contradiction.
Qed.

(** Without one of the appeals of an operator, its load is lower. *)
Lemma load_without_appeal (db : DB) (a : Appeal.t) (i : Z) :
  In a (tbl_appeals db) -> Appeal.operator_id a = Some i ->
  load (without_appeal (Appeal.id a) db) i < load db i.
Proof.
  intros Hin Hop. unfold load, group_count, without_appeal. simpl.
  apply inj_lt. apply (filter_removed_lt _ _ _ a); [assumption| |].
  - now apply opt_Z_eqb_eq.
  - now rewrite Z.eqb_refl.
Qed.

(** C4 (as stated, refuted): the operator of [scenario_zero_capacity] has a
    load equal to its [max_load], both 0, and is a candidate. *)
Lemma full_operator_claim_fails :
  Operator.max_load (the_operator "O" 0) = Some (load scenario_zero_capacity 1) /\
  In (the_operator "O" 0, 1) (candidates scenario_zero_capacity 1).
Proof. split; [reflexivity|now left]. Qed.

(** C4 (amended): an operator that holds at least one appeal and whose load
    equals its [max_load] exactly gives no candidate row; once one of its
    appeals is no longer in the table its load is below its [max_load] and
    the operator, active and linked to the source, is a candidate again.  The
    service has no request that takes an appeal away: no sequence of requests
    lowers the load, and after any sequence of requests the operator of that
    identifier gives no candidate row unless its [max_load] was raised. *)
Theorem full_operator_excluded (db : DB) (s : Z) (op : Operator.t)
    (os : OperatorSource.t) (a : Appeal.t) (rs : list request) :
  In op (tbl_operators db) ->
  In os (tbl_operator_sources db) ->
  OperatorSource.operator_id os = Operator.id op ->
  OperatorSource.source_id os = s ->
  Operator.is_active op = Some true ->
  In a (tbl_appeals db) ->
  Appeal.operator_id a = Some (Operator.id op) ->
  Operator.max_load op = Some (load db (Operator.id op)) ->
  (forall w, ~ In (op, w) (candidates db s)) /\
  In (op, OperatorSource.weight os)
     (candidates (without_appeal (Appeal.id a) db) s) /\
  load db (Operator.id op) <= load (run rs db) (Operator.id op) /\
  (forall op' w,
     Operator.id op' = Operator.id op ->
     (forall m', Operator.max_load op' = Some m' -> m' <= load db (Operator.id op)) ->
     ~ In (op', w) (candidates (run rs db) s)).
Proof.
  intros Hop Hos Hl1 Hl2 Hact Ha Hassigned Hm.
  pose proof (load_held db a _ Ha Hassigned) as Hpos.
  pose proof (load_run rs db (Operator.id op)) as Hmono.
  split; [|split; [|split]].
  - intros w. eapply full_row_not_candidate; [eassumption|assumption|apply Z.le_refl].
  - apply in_candidates. split; [exact Hop|]. split.
    + apply operator_passes_iff. split; [assumption|]. right.
      exists (load db (Operator.id op)). split; [assumption|].
      now apply load_without_appeal.
    + exists os. repeat split; [exact Hos|]. now apply linked_iff.
  - exact Hmono.
  - intros op' w Hid Hnot Hin.
    apply in_candidates in Hin as (_ & Hpass & _).
    apply operator_passes_iff in Hpass as [_ [H0 | (m' & Hm' & Hlt)]];
      rewrite Hid in *; [lia|].
    specialize (Hnot m' Hm'). lia.
Qed.

(** Scenario D: O5 with capacity 1 holds one appeal and is excluded; without
    that appeal it is a candidate; two more calls later it is still
    excluded. *)
Lemma full_operator_excluded_scenario_D :
  load scenario_full 1 = 1 /\
  ~ In (the_operator "O5" 1, 1) (candidates scenario_full 1) /\
  In (the_operator "O5" 1, 1) (candidates (without_appeal 1 scenario_full) 1) /\
  ~ In (the_operator "O5" 1, 1)
       (candidates (run [CreateAppeal (an_appeal "lead-1" 1) 0 "2024-01-01T00:00:01";
                         CreateAppeal (an_appeal "lead-2" 1) 0 "2024-01-01T00:00:02"]
                        scenario_full) 1).
Proof.
  split; [reflexivity|].
  pose proof (full_operator_excluded scenario_full 1 (the_operator "O5" 1)
                (OperatorSource.mk 1 1 1 1)
                (Appeal.mk 1 1 1 (Some 1) "2024-01-01T00:00:00" None)
                [CreateAppeal (an_appeal "lead-1" 1) 0 "2024-01-01T00:00:01";
                 CreateAppeal (an_appeal "lead-2" 1) 0 "2024-01-01T00:00:02"]
                (or_introl eq_refl) (or_introl eq_refl) eq_refl eq_refl eq_refl
                (or_introl eq_refl) eq_refl eq_refl) as (H1 & H2 & _ & H4).
  split; [apply H1|]. split; [exact H2|].
  apply H4; [reflexivity|]. intros m' Hm'. injection Hm' as <-. reflexivity.
Defined.

(** ** Capacity under sequential and interleaved calls (C5) *)

(** Run one after the other, the three stages are the call. *)
Lemma stages_in_sequence (a : AppealCreate.t) (x : Z) (now : string) (db : DB) :
  interleave [0%nat; 0%nat; 0%nat] [Accepted a x now] db =
  ([Answered (fst (create_appeal a x now db))], snd (create_appeal a x now db)).
Proof.
  unfold create_appeal. rewrite !bind_run. cbn [interleave advance stage].
  destruct (find_or_create_lead (AppealCreate.external_id a) db) as [[e|l] db1];
    [reflexivity|].
  cbn [stage]. rewrite bind_run.
  destruct (choose_operator (AppealCreate.source_id a) x db1) as [[e|o] db2];
    [reflexivity|].
  cbn [stage].
  now destruct (store_appeal (Lead.id l) (AppealCreate.source_id a) o now
                             (AppealCreate.message a) db2).
Qed.

Lemma load_insert_appeal (db : DB) (r : Appeal.t) (i : Z) :
  load (insert_appeal r db) i =
  load db i + (if opt_Z_eqb (Appeal.operator_id r) (Some i) then 1 else 0).
Proof.
  unfold load, insert_appeal. simpl. rewrite group_count_app.
  unfold group_count at 2. simpl.
  now destruct (opt_Z_eqb (Appeal.operator_id r) (Some i)).
Qed.

Lemma load_after_lead (e : string) (db : DB) (i : Z) :
  load (after_lead e db) i = load db i.
Proof.
  unfold load. destruct (after_lead_frame e db) as (_ & _ & _ & Ha).
  now rewrite Ha.
Qed.

(** One call, run alone, keeps a load that is within a capacity of at least
    one within that capacity. *)
Lemma create_appeal_capacity (db : DB) (a : AppealCreate.t) (x : Z)
    (now : string) (op : Operator.t) (m : Z) :
  NoDup (map Operator.id (tbl_operators db)) ->
  In op (tbl_operators db) ->
  Operator.max_load op = Some m -> 1 <= m ->
  load db (Operator.id op) <= m ->
  load (snd (create_appeal a x now db)) (Operator.id op) <= m.
Proof.
  intros Hnd Hop Hm Hm1 Hload. rewrite create_appeal_run.
  destruct (select_operator _ x) as [e|o] eqn:E; simpl.
  - now rewrite load_after_lead.
  - rewrite load_insert_appeal, load_after_lead. simpl.
    destruct (opt_Z_eqb o (Some (Operator.id op))) eqn:Eo; [|lia].
    apply opt_Z_eqb_eq in Eo. subst o.
    apply select_operator_inv in E as (op' & w & Hin & Hid & _).
    apply in_candidates in Hin as (Hop' & Ha & _).
    assert (op' = op) by (eapply NoDup_map_inj; eassumption). subst op'.
    apply operator_passes_iff in Ha as [_ [H0 | (m' & Hm' & Hlt)]]; [lia|].
    rewrite Hm in Hm'. injection Hm' as <-. lia.
Qed.

(** C5 (as stated, refuted): a single call assigns an appeal to the operator
    of capacity 0, whose load is then 1; and two calls whose stages alternate
    both find the operator of capacity 1 free and both insert an appeal for
    it, whose load is then 2. *)
Lemma capacity_exceeded :
  (load (snd (create_appeal (an_appeal "lead-1" 1) 0 "2024-01-01T00:00:00"
                            scenario_zero_capacity)) 1 = 1 /\
   Operator.max_load (the_operator "O" 0) = Some 0) /\
  (tbl_operators scenario_last_slot = [the_operator "O" 1] /\
   load scenario_last_slot 1 = 0 /\
   let '(calls, db) :=
     interleave [0%nat; 1%nat; 0%nat; 1%nat; 0%nat; 1%nat]
       [Accepted (an_appeal "lead-1" 1) 0 "2024-01-01T00:00:00";
        Accepted (an_appeal "lead-2" 1) 0 "2024-01-01T00:00:00"]
       scenario_last_slot in
   calls = [Answered (inr (Appeal.mk 1 1 1 (Some 1) "2024-01-01T00:00:00" None));
            Answered (inr (Appeal.mk 2 2 1 (Some 1) "2024-01-01T00:00:00" None))] /\
   tbl_operators db = [the_operator "O" 1] /\
   load db 1 = 2).
Proof. repeat split. Qed.

(** C5 (amended): when [create_appeal] calls run one after the other, each
    to its end before the next begins, every operator of the table with a
    capacity of at least 1 (identifiers being unique) whose load is within
    its capacity before the calls has a load within its capacity after
    them. *)
Theorem sequential_capacity_invariant (rs : list request) (db : DB)
    (op : Operator.t) (m : Z) :
  Forall is_create_appeal rs ->
  NoDup (map Operator.id (tbl_operators db)) ->
  In op (tbl_operators db) ->
  Operator.max_load op = Some m -> 1 <= m ->
  load db (Operator.id op) <= m ->
  load (run rs db) (Operator.id op) <= m.
Proof.
  intros Hrs. revert db.
  induction Hrs as [|r rs Hr _ IH]; intros db Hnd Hop Hm Hm1 Hload;
    [assumption|].
  rewrite run_cons. destruct r; try contradiction. simpl.
  assert (Ho : tbl_operators (snd (create_appeal appeal x now db)) = tbl_operators db)
    by (destruct (create_appeal_db appeal x now db) as [added ->]; reflexivity).
  apply IH; try assumption.
  - now rewrite Ho.
  - now rewrite Ho.
  - now apply create_appeal_capacity.
Qed.

(** Three calls in a row on the operator of capacity 1: one appeal for it,
    two unassigned. *)
Lemma sequential_capacity_invariant_last_slot :
  load scenario_last_slot 1 <= 1 /\
  load (run [CreateAppeal (an_appeal "lead-1" 1) 0 "2024-01-01T00:00:00";
             CreateAppeal (an_appeal "lead-2" 1) 0 "2024-01-01T00:00:01";
             CreateAppeal (an_appeal "lead-3" 1) 0 "2024-01-01T00:00:02"]
            scenario_last_slot) 1 <= 1.
Proof.
  split; [vm_compute; discriminate|].
  apply (sequential_capacity_invariant _ scenario_last_slot (the_operator "O" 1) 1).
  - repeat constructor.
  - simpl. constructor; [intros []|constructor].
  - now left.
  - reflexivity.
  - lia.
  - vm_compute. discriminate.
Defined.

(** ** The weighted draw *)

Lemma fold_left_add (ws : list Z) (a : Z) : fold_left Z.add ws a = a + sum ws.
Proof.
  unfold sum. revert a. induction ws as [|w ws IH]; intros a; simpl; [lia|].
  rewrite IH, (IH w). lia.
Qed.

Lemma sum_cons (w : Z) (ws : list Z) : sum (w :: ws) = w + sum ws.
Proof. unfold sum at 1. simpl. now rewrite fold_left_add. Qed.

Lemma sum_app (l1 l2 : list Z) : sum (l1 ++ l2) = sum l1 + sum l2.
Proof.
  induction l1 as [|w l1 IH]; [reflexivity|].
  simpl app. rewrite !sum_cons, IH. lia.
Qed.

Lemma sum_nonneg (ws : list Z) : Forall (fun w => 0 < w) ws -> 0 <= sum ws.
Proof.
  induction 1 as [|w ws Hw _ IH]; [reflexivity|]. rewrite sum_cons. lia.
Qed.

Lemma sum_pos (ws : list Z) :
  Forall (fun w => 0 < w) ws -> ws <> [] -> 0 < sum ws.
Proof.
  intros H Hne. destruct H as [|w ws Hw Hws]; [contradiction|].
  rewrite sum_cons. pose proof (sum_nonneg ws Hws). lia.
Qed.

Lemma positive_firstn (ws : list Z) (j : nat) :
  Forall (fun w => 0 < w) ws -> Forall (fun w => 0 < w) (firstn j ws).
Proof.
  intros H. revert j. induction H as [|w ws Hw _ IH]; intros [|j]; simpl;
    constructor; auto.
Qed.

Lemma accumulate_from_length (acc : Z) (ws : list Z) :
  List.length (accumulate_from acc ws) = List.length ws.
Proof.
  revert acc. induction ws as [|w ws IH]; intros acc; simpl; [reflexivity|].
  now rewrite IH.
Qed.

(** The last running total is the total. *)
Lemma last_opt_accumulate_from (acc w : Z) (ws : list Z) :
  last_opt (accumulate_from acc (w :: ws)) = Some (acc + sum (w :: ws)).
Proof.
  revert acc w. induction ws as [|w' ws IH]; intros acc w.
  - simpl. rewrite sum_cons. f_equal. unfold sum. simpl. lia.
  - change (accumulate_from acc (w :: w' :: ws))
      with ((acc + w) :: accumulate_from (acc + w) (w' :: ws)).
    rewrite (sum_cons w).
    change (last_opt ((acc + w) :: accumulate_from (acc + w) (w' :: ws)))
      with (last_opt (accumulate_from (acc + w) (w' :: ws))).
    rewrite IH. f_equal. lia.
Qed.

Lemma bisect_le (a : list Z) (x : Z) (hi : nat) : (bisect a x hi <= hi)%nat.
Proof.
  revert a. induction hi as [|hi IH]; intros a; destruct a as [|c rest];
    simpl; try lia.
  destruct (x <? c); [lia|]. specialize (IH rest). lia.
Qed.

(** The draw lands on row [j] exactly when the ticket lies between the
    running total before row [j] and the running total after it. *)
Lemma bisect_interval (ws : list Z) (acc x : Z) (hi j : nat) :
  Forall (fun w => 0 < w) ws ->
  (j <= hi)%nat -> (hi < List.length ws)%nat ->
  acc + sum (firstn j ws) <= x < acc + sum (firstn (S j) ws) ->
  bisect (accumulate_from acc ws) x hi = j.
Proof.
  intros Hpos. revert acc hi j.
  induction Hpos as [|w ws Hw Hws IH]; intros acc hi j Hj Hhi Hx;
    [simpl in Hhi; lia|].
  destruct hi as [|hi].
  - assert (j = O) by lia. subst j. reflexivity.
  - simpl. destruct j as [|j].
    + simpl in Hx. rewrite sum_cons in Hx. unfold sum in Hx. simpl in Hx.
      destruct (x <? acc + w) eqn:E; [reflexivity|].
      apply Z.ltb_ge in E. lia.
    + rewrite !firstn_cons, !sum_cons in Hx.
      pose proof (sum_nonneg (firstn j ws) (positive_firstn ws j Hws)) as Hnn.
      destruct (x <? acc + w) eqn:E; [apply Z.ltb_lt in E; lia|].
      f_equal. apply IH; [lia|simpl in Hhi; lia|lia].
Qed.

Lemma sum_firstn_S (ws : list Z) (j : nat) (w : Z) :
  nth_error ws j = Some w ->
  sum (firstn (S j) ws) = sum (firstn j ws) + w.
Proof.
  revert j. induction ws as [|y ws IH]; intros [|j] H; try discriminate.
  - simpl in H. injection H as ->. rewrite firstn_cons, sum_cons. simpl.
    unfold sum. simpl. lia.
  - simpl in H. rewrite !firstn_cons, !sum_cons, (IH j H). lia.
Qed.

Section PositiveWeights.

Variable ws : list Z.
Hypothesis positive_ws : Forall (fun w => 0 < w) ws.

Lemma sum_firstn_le (j : nat) : sum (firstn j ws) <= sum ws.
Proof.
  rewrite <- (firstn_skipn j ws) at 2. rewrite sum_app.
  assert (0 <= sum (skipn j ws)); [|lia].
  apply sum_nonneg. rewrite <- (firstn_skipn j ws) in positive_ws.
  now apply Forall_app in positive_ws.
Qed.

(** [choices] returns the weight of the row the ticket lands on. *)
Lemma choices_weights (x : Z) :
  ws <> [] ->
  exists w,
    nth_error ws (bisect (accumulate ws) x (List.length ws - 1)) = Some w /\
    choices ws ws x = inr w.
Proof.
  intros Hne. unfold choices, accumulate.
  rewrite accumulate_from_length, Nat.eqb_refl. cbn [negb].
  assert (Hlast : last_opt (accumulate_from 0 ws) = Some (sum ws)).
  { destruct ws as [|w0 ws0]; [contradiction|].
    rewrite last_opt_accumulate_from. reflexivity. }
  rewrite Hlast.
  pose proof (sum_pos ws positive_ws Hne) as Hsum.
  destruct (sum ws <=? 0) eqn:E; [apply Z.leb_le in E; lia|].
  pose proof (bisect_le (accumulate_from 0 ws) x (List.length ws - 1)) as Hle.
  destruct (nth_error ws (bisect (accumulate_from 0 ws) x (List.length ws - 1)))
    as [w|] eqn:En.
  - now exists w.
  - apply nth_error_None in En.
    assert (List.length ws <> O) by (destruct ws; [contradiction|discriminate]).
    lia.
Qed.

(** The ticket at the running total before row [j] lands on row [j]. *)
Lemma bisect_row_start (j : nat) (w : Z) :
  nth_error ws j = Some w ->
  bisect (accumulate ws) (sum (firstn j ws)) (List.length ws - 1) = j.
Proof.
  intros Hj. unfold accumulate.
  assert (Hlt : (j < List.length ws)%nat)
    by (apply nth_error_Some; congruence).
  apply bisect_interval; [assumption|lia|lia|].
  rewrite (sum_firstn_S ws j w Hj).
  assert (0 < w); [|lia].
  apply (proj1 (Forall_forall _ ws) positive_ws). eapply nth_error_In. eassumption.
Qed.

End PositiveWeights.

(** [index] finds the first row that holds the value. *)
Lemma index_first (ws : list Z) (v : Z) :
  In v ws ->
  exists i, index ws v = inr i /\ nth_error ws i = Some v /\
            forall k, (k < i)%nat -> nth_error ws k <> Some v.
Proof.
  induction ws as [|y ws IH]; [contradiction|]. intros Hin. simpl.
  destruct (y =? v) eqn:E.
  - apply Z.eqb_eq in E. subst y. exists O. repeat split. intros k Hk. lia.
  - apply Z.eqb_neq in E. destruct Hin as [-> | Hin]; [contradiction|].
    destruct (IH Hin) as (i & Hi & Hnth & Hfirst). rewrite Hi. cbn [and_then].
    exists (S i). repeat split; [assumption|].
    intros [|k] Hk; simpl; [congruence|]. apply Hfirst. lia.
Qed.

Lemma positive_pairs_weights (candidates : list (Operator.t * Z)) :
  Forall (fun w => 0 < w) (map snd (positive_pairs candidates)).
Proof.
  apply Forall_forall. intros w Hin. apply in_map_iff in Hin as ([o w'] & Hw & Hin).
  simpl in Hw. subst w'. now apply positive_pairs_in in Hin as (_ & _ & _ & ?).
Qed.

(** With a positive row among the candidates the selection returns an
    operator: the ticket lands on a row [j]; the weight [w] of that row is
    looked up again, which gives the first row [i] of weight [w]; the operator
    of row [i] is the answer. *)
Lemma select_operator_drawn (candidates : list (Operator.t * Z)) (x : Z) :
  positive_pairs candidates <> [] ->
  exists w i o,
    nth_error (map snd (positive_pairs candidates))
      (bisect (accumulate (map snd (positive_pairs candidates))) x
              (List.length (map snd (positive_pairs candidates)) - 1)) = Some w /\
    index (map snd (positive_pairs candidates)) w = inr i /\
    (forall k, (k < i)%nat ->
       nth_error (map snd (positive_pairs candidates)) k <> Some w) /\
    nth_error (positive_pairs candidates) i = Some (o, w) /\
    select_operator candidates x = inr (Some o).
Proof.
  intros Hne. unfold select_operator.
  destruct candidates as [|c cs] eqn:Ec; [now elim Hne|]. rewrite <- Ec in *.
  rewrite zip_star_unpack by assumption. cbn [and_then].
  set (pairs := positive_pairs candidates) in *.
  set (ws := map snd pairs).
  assert (Hws : ws <> []) by (unfold ws; destruct pairs; [contradiction|discriminate]).
  pose proof (positive_pairs_weights candidates) as Hpos. fold pairs ws in Hpos.
  pose proof (sum_pos ws Hpos Hws) as Hsum.
  destruct (sum ws >? 0) eqn:E; [|rewrite Z.gtb_ltb in E; apply Z.ltb_ge in E; lia].
  destruct (choices_weights ws Hpos x Hws) as (w & Hnth & Hch).
  rewrite Hch. cbn [and_then].
  destruct (index_first ws w (nth_error_In _ _ Hnth)) as (i & Hi & Hnthi & Hfirst).
  rewrite Hi. cbn [and_then].
  unfold ws in Hnthi. rewrite nth_error_map in Hnthi.
  destruct (nth_error pairs i) as [[o w']|] eqn:Ep; [|discriminate].
  simpl in Hnthi. injection Hnthi as ->.
  unfold getitem. rewrite nth_error_map, Ep. simpl.
  exists w, i, o. repeat split; assumption.
Qed.

(** ** An operator without appeals (C9) *)

(** C9 (as stated, refuted): O1 is active, linked to the source, has
    [max_load = 0] and no appeal, and is a candidate; but its weight is 0,
    and on every ticket the appeal goes to O2: such an operator is not always
    one that can be selected and assigned. *)
Lemma zero_weight_operator_never_assigned :
  In (Operator.mk 1 "O1" (Some true) (Some 0), 0)
     (candidates scenario_zero_capacity_zero_weight 1) /\
  load scenario_zero_capacity_zero_weight 1 = 0 /\
  forall x,
    fst (create_appeal (an_appeal "lead-1" 1) x "2024-01-01T00:00:00"
                       scenario_zero_capacity_zero_weight)
    = inr (Appeal.mk 1 1 1 (Some 2) "2024-01-01T00:00:00" None).
Proof.
  split; [now left|]. split; [reflexivity|].
  intros x. rewrite create_appeal_run.
  change (candidates scenario_zero_capacity_zero_weight
            (AppealCreate.source_id (an_appeal "lead-1" 1)))
    with [(Operator.mk 1 "O1" (Some true) (Some 0), 0);
          (Operator.mk 2 "O2" (Some true) (Some 5), 5)].
  reflexivity.
Qed.

(** C9 (amended): an active operator that is linked to the source and has no
    appeal attributed to it gives a candidate row for each of its affinity
    rows, whatever its [max_load] (0, negative or NULL included); and when
    the weight of the row is positive and no other operator's candidate row
    has the same weight, some ticket of the draw makes [create_appeal] return
    an appeal assigned to it. *)
Theorem no_appeal_operator_is_candidate (db : DB) (a : AppealCreate.t)
    (now : string) (op : Operator.t) (os : OperatorSource.t) :
  In op (tbl_operators db) ->
  In os (tbl_operator_sources db) ->
  OperatorSource.operator_id os = Operator.id op ->
  OperatorSource.source_id os = AppealCreate.source_id a ->
  Operator.is_active op = Some true ->
  load db (Operator.id op) = 0 ->
  In (op, OperatorSource.weight os) (candidates db (AppealCreate.source_id a)) /\
  (0 < OperatorSource.weight os ->
   (forall op', In (op', OperatorSource.weight os)
                   (candidates db (AppealCreate.source_id a)) ->
                Operator.id op' = Operator.id op) ->
   exists x r,
     0 <= x < total_weight (candidates db (AppealCreate.source_id a)) /\
     fst (create_appeal a x now db) = inr r /\
     Appeal.operator_id r = Some (Operator.id op)).
Proof.
  intros Hop Hos Hl1 Hl2 Hact Hload.
  assert (Hin : In (op, OperatorSource.weight os)
                   (candidates db (AppealCreate.source_id a))).
  { apply in_candidates. repeat split; [assumption| |].
    - apply operator_passes_iff. split; [assumption|now left].
    - exists os. repeat split; [assumption|now apply linked_iff]. }
  split; [exact Hin|]. intros Hw Huniq.
  set (cands := candidates db (AppealCreate.source_id a)) in *.
  set (w := OperatorSource.weight os) in *.
  assert (Hp : In (Operator.id op, w) (positive_pairs cands))
    by (apply positive_pairs_in; now exists op).
  destruct (In_nth_error _ _ Hp) as [j Hj].
  assert (Hwj : nth_error (map snd (positive_pairs cands)) j = Some w)
    by (rewrite nth_error_map, Hj; reflexivity).
  pose proof (positive_pairs_weights cands) as Hpos.
  set (x := sum (firstn j (map snd (positive_pairs cands)))).
  assert (Hne : positive_pairs cands <> [])
    by (intros E; rewrite E in Hp; contradiction).
  destruct (select_operator_drawn cands x Hne)
    as (w' & i & o & Hdrawn & _ & _ & Hrow & Hsel).
  unfold x in Hdrawn. rewrite (bisect_row_start _ Hpos j w Hwj), Hwj in Hdrawn.
  injection Hdrawn as <-.
  assert (Ho : o = Operator.id op).
  { apply nth_error_In in Hrow.
    apply positive_pairs_in in Hrow as (op' & Hin' & <- & _). now apply Huniq. }
  subst o. exists x, (new_appeal a now db (Some (Operator.id op))).
  split; [|rewrite create_appeal_run; fold cands; rewrite Hsel; now split].
  unfold total_weight. split.
  - apply sum_nonneg. now apply positive_firstn.
  - pose proof (sum_firstn_S _ j w Hwj) as HS.
    pose proof (sum_firstn_le (map snd (positive_pairs cands)) Hpos (S j)).
    unfold x. lia.
Qed.

(** The operator of capacity 0 without appeals is a candidate and is
    assigned the appeal. *)
Lemma no_appeal_operator_is_candidate_zero_capacity :
  Operator.max_load (the_operator "O" 0) = Some 0 /\
  load scenario_zero_capacity 1 = 0 /\
  In (the_operator "O" 0, 1) (candidates scenario_zero_capacity 1) /\
  exists x r,
    0 <= x < total_weight (candidates scenario_zero_capacity 1) /\
    fst (create_appeal (an_appeal "lead-1" 1) x "2024-01-01T00:00:00"
                       scenario_zero_capacity) = inr r /\
    Appeal.operator_id r = Some 1.
Proof.
  split; [reflexivity|]. split; [reflexivity|].
  pose proof (no_appeal_operator_is_candidate scenario_zero_capacity
                (an_appeal "lead-1" 1) "2024-01-01T00:00:00"
                (the_operator "O" 0) (OperatorSource.mk 1 1 1 1)) as H.
  destruct H as [Hin Hex]; try reflexivity; try (now left).
  split; [exact Hin|].
  apply Hex; [reflexivity|].
  intros op' [Heq | []]. now injection Heq as <-.
Defined.

(** ** The distribution of the draw (C2) *)

(** With a positive row among the candidates, every ticket draws exactly one
    operator, and it is the operator of a positive row. *)
Lemma select_operator_total (candidates : list (Operator.t * Z)) (x : Z) :
  positive_pairs candidates <> [] ->
  exists o w, select_operator candidates x = inr (Some o) /\
              In (o, w) (positive_pairs candidates).
Proof.
  intros Hne.
  destruct (select_operator_drawn candidates x Hne)
    as (w & i & o & _ & _ & _ & Hrow & Hsel).
  exists o, w. split; [assumption|]. eapply nth_error_In. eassumption.
Qed.

(** X11: the weight that was drawn is looked up from the start of the list,
    so an operator each of whose positive rows repeats the weight of an
    earlier row is never selected, on any ticket. *)
Lemma later_equal_weight_never_drawn (candidates : list (Operator.t * Z)) (o : Z) :
  (forall i w, nth_error (positive_pairs candidates) i = Some (o, w) ->
     exists k, (k < i)%nat /\
               nth_error (map snd (positive_pairs candidates)) k = Some w) ->
  forall x, select_operator candidates x <> inr (Some o).
Proof.
  intros Hlater x Hsel.
  destruct (positive_pairs candidates) as [|p ps] eqn:Hp.
  - destruct candidates as [|c cs]; [discriminate|].
    rewrite select_operator_raises in Hsel; [discriminate|discriminate|assumption].
  - rewrite <- Hp in *.
    assert (Hne : positive_pairs candidates <> []) by (rewrite Hp; discriminate).
    destruct (select_operator_drawn candidates x Hne)
      as (w & i & o' & _ & _ & Hfirst & Hrow & Hsel').
    rewrite Hsel' in Hsel. injection Hsel as ->.
    destruct (Hlater i w Hrow) as (k & Hk & Hkw). now apply (Hfirst k Hk).
Qed.

(** C2 (the code departs from the claim): two operators linked to the source
    with the same weight 3.  The total weight is 6 and the claim gives each
    of them probability 3/6; the code selects operator 1 on every ticket (all
    6 of 6) and operator 2 on none. *)
Theorem equal_weights_first_operator_always_drawn :
  candidates scenario_equal_weights 1 =
    [(Operator.mk 1 "O1" (Some true) (Some 5), 3);
     (Operator.mk 2 "O2" (Some true) (Some 5), 3)] /\
  total_weight (candidates scenario_equal_weights 1) = 6 /\
  (forall x, select_operator (candidates scenario_equal_weights 1) x = inr (Some 1)) /\
  draws (candidates scenario_equal_weights 1) 1 = 6 /\
  draws (candidates scenario_equal_weights 1) 2 = 0.
Proof.
  split; [reflexivity|]. split; [reflexivity|]. split; [|split; reflexivity].
  intros x.
  change (candidates scenario_equal_weights 1)
    with [(Operator.mk 1 "O1" (Some true) (Some 5), 3);
          (Operator.mk 2 "O2" (Some true) (Some 5), 3)].
  unfold select_operator, positive_pairs. cbn [filter map fst snd Z.gtb Z.compare].
  cbn [zip_star map fst snd unpack2 and_then].
  change (sum [3; 3] >? 0) with true. cbv iota.
  unfold choices, accumulate. cbn [accumulate_from List.length Nat.eqb negb last_opt].
  change (0 + 3 + 3 <=? 0) with false. cbv iota.
  cbn [Nat.sub bisect]. change (0 + 3) with 3.
  destruct (x <? 3); reflexivity.
Qed.

Lemma tickets_in (total x : Z) : In x (tickets total) <-> 0 <= x < total.
Proof.
  unfold tickets. rewrite in_map_iff. split.
  - intros (n & <- & Hn). apply in_seq in Hn. lia.
  - intros Hx. exists (Z.to_nat x). split; [lia|]. apply in_seq. lia.
Qed.

Lemma count_below (a b : Z) (n : nat) :
  0 <= a <= b ->
  Z.of_nat (List.length (filter (fun x => (a <=? x) && (x <? b))
                                (map Z.of_nat (seq 0 n)))) =
  Z.max 0 (Z.min b (Z.of_nat n) - a).
Proof.
  intros Hab. induction n as [|n IH]; [simpl; lia|].
  rewrite seq_S, map_app, filter_app, length_app, Nat2Z.inj_add, IH.
  cbn [Nat.add map filter].
  destruct (a <=? Z.of_nat n) eqn:E1; destruct (Z.of_nat n <? b) eqn:E2;
    cbn [andb List.length];
    try apply Z.leb_le in E1; try apply Z.leb_gt in E1;
    try apply Z.ltb_lt in E2; try apply Z.ltb_ge in E2; lia.
Qed.

(** Of the tickets [0 .. total - 1], exactly [b - a] lie in [[a, b)]. *)
Lemma count_tickets_interval (a b total : Z) :
  0 <= a <= b -> b <= total ->
  Z.of_nat (List.length (filter (fun x => (a <=? x) && (x <? b)) (tickets total)))
  = b - a.
Proof.
  intros Hab Hb. unfold tickets. rewrite count_below by assumption. lia.
Qed.

Lemma interval_exists (ws : list Z) (acc x : Z) :
  Forall (fun w => 0 < w) ws ->
  acc <= x < acc + sum ws ->
  exists j w, nth_error ws j = Some w /\
              acc + sum (firstn j ws) <= x < acc + sum (firstn (S j) ws).
Proof.
  intros Hpos. revert acc. induction Hpos as [|w ws Hw _ IH]; intros acc Hx.
  - unfold sum in Hx. simpl in Hx. lia.
  - rewrite sum_cons in Hx. destruct (Z.lt_ge_cases x (acc + w)) as [Hlt | Hge].
    + exists O, w. split; [reflexivity|].
      rewrite firstn_cons, sum_cons. simpl. unfold sum. simpl. lia.
    + destruct (IH (acc + w)) as (j & w' & Hj & Hint); [lia|].
      exists (S j), w'. split; [assumption|].
      rewrite !firstn_cons, !sum_cons. lia.
Qed.

(** X10: where the claim of C2 does hold.  When the positive rows have
    pairwise different weights and pairwise different operators, the operator
    of a row of weight [w] is selected on exactly [w] of the [total_weight]
    tickets, that is with probability [w / total_weight]. *)
Lemma draws_distinct_weights (candidates : list (Operator.t * Z)) (o w : Z) :
  NoDup (map snd (positive_pairs candidates)) ->
  NoDup (map fst (positive_pairs candidates)) ->
  In (o, w) (positive_pairs candidates) ->
  draws candidates o = w.
Proof.
  intros Hndw Hndo Hin.
  set (pairs := positive_pairs candidates) in *.
  set (ws := map snd pairs) in *.
  destruct (In_nth_error _ _ Hin) as [j Hj].
  assert (Hwj : nth_error ws j = Some w)
    by (unfold ws; rewrite nth_error_map, Hj; reflexivity).
  assert (Hoj : nth_error (map fst pairs) j = Some o)
    by (rewrite nth_error_map, Hj; reflexivity).
  assert (Hjlt : (j < List.length ws)%nat) by (apply nth_error_Some; congruence).
  pose proof (positive_pairs_weights candidates) as Hpos. fold pairs ws in Hpos.
  assert (Hne : pairs <> []) by (intros E; rewrite E in Hin; contradiction).
  pose proof (sum_firstn_S ws j w Hwj) as HS.
  pose proof (sum_firstn_le ws Hpos (S j)) as Hle.
  pose proof (sum_nonneg _ (positive_firstn ws j Hpos)) as Hnn.
  assert (Hw : 0 < w)
    by (apply (proj1 (Forall_forall _ ws) Hpos); eapply nth_error_In; eassumption).
  unfold draws, total_weight. fold pairs ws.
  rewrite (filter_ext_in _
             (fun x => (sum (firstn j ws) <=? x) && (x <? sum (firstn j ws) + w))).
  { rewrite count_tickets_interval; lia. }
  intros x Hx. apply tickets_in in Hx. unfold selects.
  destruct (select_operator_drawn candidates x Hne)
    as (w' & i & o' & Hdrawn & _ & _ & Hrow & Hsel).
  fold pairs ws in Hdrawn, Hrow. rewrite Hsel.
  assert (Hi : nth_error ws i = Some w')
    by (unfold ws; rewrite nth_error_map, Hrow; reflexivity).
  assert (Hilt : (i < List.length ws)%nat) by (apply nth_error_Some; congruence).
  destruct (interval_exists ws 0 x Hpos ltac:(lia)) as (j' & wj' & Hj' & Hint).
  assert (Hj'lt : (j' < List.length ws)%nat) by (apply nth_error_Some; congruence).
  assert (Hb : bisect (accumulate ws) x (List.length ws - 1) = j')
    by (apply bisect_interval; [assumption|lia|lia|assumption]).
  rewrite Hb, Hj' in Hdrawn. injection Hdrawn as ->.
  assert (i = j').
  { apply (proj1 (NoDup_nth_error ws) Hndw); [assumption|congruence]. }
  subst i.
  destruct ((sum (firstn j ws) <=? x) && (x <? sum (firstn j ws) + w)) eqn:E.
  - apply andb_true_iff in E as [E1 E2].
    apply Z.leb_le in E1. apply Z.ltb_lt in E2.
    assert (Hbj : bisect (accumulate ws) x (List.length ws - 1) = j)
      by (apply bisect_interval; [assumption|lia|lia|lia]).
    assert (j' = j) by congruence. clear Hb Hbj. subst j'.
    rewrite Hj in Hrow. injection Hrow as <- _. apply Z.eqb_refl.
  - apply Z.eqb_neq. intros ->.
    assert (j' = j).
    { apply (proj1 (NoDup_nth_error (map fst pairs)) Hndo).
      - rewrite length_map. unfold ws in Hj'lt. now rewrite length_map in Hj'lt.
      - rewrite Hoj, nth_error_map, Hrow. reflexivity. }
    clear Hb. subst j'. apply andb_false_iff in E.
    rewrite (sum_firstn_S ws j w Hwj) in Hint.
    destruct E as [E | E];
      [apply Z.leb_gt in E | apply Z.ltb_ge in E]; lia.
Qed.

(** Scenario A: weights 1 and 3.  O1 is drawn on 1 ticket of 4 and O2 on 3. *)
Lemma draws_scenario_A :
  let cands := [(Operator.mk 1 "O1" (Some true) (Some 2), 1);
                (Operator.mk 2 "O2" (Some true) (Some 2), 3)] in
  total_weight cands = 4 /\ draws cands 1 = 1 /\ draws cands 2 = 3.
Proof.
  intros cands. split; [reflexivity|]. split.
  - apply draws_distinct_weights.
    + simpl. repeat constructor; simpl; intuition discriminate.
    + simpl. repeat constructor; simpl; intuition discriminate.
    + now left.
  - apply draws_distinct_weights.
    + simpl. repeat constructor; simpl; intuition discriminate.
    + simpl. repeat constructor; simpl; intuition discriminate.
    + right. now left.
Defined.

(** ** Two calls for the same lead (C7) *)

Lemma find_app {A} (f : A -> bool) (l1 l2 : list A) :
  find f (l1 ++ l2) =
  match find f l1 with
  | Some a => Some a
  | None => find f l2
  end.
Proof.
  induction l1 as [|a l1 IH]; simpl; [reflexivity|]. now destruct (f a).
Qed.

Lemma find_none_filter {A} (f : A -> bool) (l : list A) :
  find f l = None -> filter f l = [].
Proof.
  induction l as [|a l IH]; simpl; [reflexivity|].
  destruct (f a); [discriminate|assumption].
Qed.

Lemma find_some_filter {A} (f : A -> bool) (l : list A) (a : A) :
  find f l = Some a -> filter f l <> [].
Proof.
  induction l as [|b l IH]; simpl; [discriminate|].
  destruct (f b); [discriminate|assumption].
Qed.

Lemma tbl_leads_create_appeal (a : AppealCreate.t) (x : Z) (now : string) (db : DB) :
  tbl_leads (snd (create_appeal a x now db)) =
  tbl_leads (after_lead (AppealCreate.external_id a) db).
Proof.
  rewrite create_appeal_run. now destruct (select_operator _ x).
Qed.

(** A call leaves the leads of its external identifier as they are when
    there is one, and creates exactly one when there is none; this holds
    whether the call returns or raises. *)
Lemma leads_of_create_appeal (a : AppealCreate.t) (x : Z) (now : string) (db : DB) :
  leads_of (snd (create_appeal a x now db)) (AppealCreate.external_id a) =
  match leads_of db (AppealCreate.external_id a) with
  | [] => [Lead.mk (next_rowid (map Lead.id (tbl_leads db)))
                   (AppealCreate.external_id a)]
  | found => found
  end.
Proof.
  unfold leads_of. rewrite tbl_leads_create_appeal. unfold after_lead.
  destruct (find _ (tbl_leads db)) as [l|] eqn:E.
  - apply find_some_filter in E. now destruct (filter _ (tbl_leads db)).
  - apply find_none_filter in E. rewrite E. simpl.
    rewrite filter_app, E. simpl. now rewrite String.eqb_refl.
Qed.

(** The second call finds the lead the first call used. *)
Lemma resolved_lead_create_appeal (a : AppealCreate.t) (x : Z) (now : string)
    (db : DB) :
  resolved_lead (AppealCreate.external_id a) (snd (create_appeal a x now db)) =
  resolved_lead (AppealCreate.external_id a) db.
Proof.
  unfold resolved_lead. rewrite tbl_leads_create_appeal. unfold after_lead.
  destruct (find _ (tbl_leads db)) as [l|] eqn:E; [now rewrite E|].
  simpl. rewrite find_app, E. simpl. now rewrite String.eqb_refl.
Qed.

Lemma fold_max_ge (ids : list Z) (i : Z) : In i ids -> i <= fold_right Z.max 0 ids.
Proof.
  induction ids as [|j ids IH]; [contradiction|]. cbn [fold_right].
  intros [-> | Hin]; [lia|]. specialize (IH Hin). lia.
Qed.

(** A new row gets an identifier above every identifier in use. *)
Lemma next_rowid_gt (ids : list Z) (i : Z) : In i ids -> i < next_rowid ids.
Proof.
  intros Hin. unfold next_rowid. pose proof (fold_max_ge ids i Hin). lia.
Qed.

(** When both calls return, they have inserted two appeals with different
    identifiers under one and the same lead, each with the operator of its
    own draw. *)
Lemma two_calls_two_appeals (a : AppealCreate.t) (x1 x2 : Z) (t1 t2 : string)
    (db : DB) (r1 r2 : Appeal.t) :
  fst (create_appeal a x1 t1 db) = inr r1 ->
  fst (create_appeal a x2 t2 (snd (create_appeal a x1 t1 db))) = inr r2 ->
  tbl_appeals (snd (create_appeal a x2 t2 (snd (create_appeal a x1 t1 db)))) =
    tbl_appeals db ++ [r1; r2] /\
  Appeal.lead_id r1 = Appeal.lead_id r2 /\
  Appeal.id r1 < Appeal.id r2.
Proof.
  intros H1 H2.
  pose proof (resolved_lead_create_appeal a x1 t1 db) as Hlead.
  set (db1 := snd (create_appeal a x1 t1 db)) in *.
  assert (Hdb1 : tbl_appeals db1 = tbl_appeals db ++ [r1] /\
                 Appeal.lead_id r1 =
                   Lead.id (resolved_lead (AppealCreate.external_id a) db)).
  { unfold db1. revert H1. rewrite create_appeal_run.
    destruct (after_lead_frame (AppealCreate.external_id a) db) as (_ & _ & _ & Ha).
    destruct (select_operator _ x1); simpl; [discriminate|].
    intros H. injection H as <-. now rewrite Ha. }
  destruct Hdb1 as [Happ1 Hl1].
  revert H2. rewrite create_appeal_run.
  destruct (after_lead_frame (AppealCreate.external_id a) db1) as (_ & _ & _ & Ha).
  destruct (select_operator _ x2); simpl; [discriminate|].
  intros H. injection H as <-. rewrite Ha, Happ1, <- app_assoc. simpl.
  split; [reflexivity|]. split.
  - now rewrite Hlead.
  - apply next_rowid_gt. rewrite Happ1, map_app. apply in_or_app. right. now left.
Qed.

(** C7 (the code departs from the claim): two calls with the same external
    identifier and source on the database of Scenario B.  The first call
    creates the lead and the second reuses it, so there is one lead; but
    both calls raise [ValueError], whatever their tickets, and no appeal
    record is created, where the claim has two. *)
Theorem repeated_call_zero_weight_stores_no_appeal (x1 x2 : Z) :
  let a := an_appeal "lead-1" 1 in
  let after_first := create_appeal a x1 "2024-01-01T00:00:00" scenario_zero_weight in
  let after_second := create_appeal a x2 "2024-01-01T00:00:01" (snd after_first) in
  fst after_first = inl ValueError /\
  fst after_second = inl ValueError /\
  tbl_leads (snd after_second) = [Lead.mk 1 "lead-1"] /\
  tbl_appeals (snd after_second) = [].
Proof. repeat split. Qed.

(** On Scenario A both calls return: one lead, two appeals. *)
Lemma repeated_call_scenario_A :
  let db := run [CreateOperator (OperatorCreate.mk "O1" true 2);
                 CreateOperator (OperatorCreate.mk "O2" true 2);
                 CreateSource (SourceCreate.mk "S");
                 CreateOperatorSource (OperatorSourceCreate.mk 1 1 1);
                 CreateOperatorSource (OperatorSourceCreate.mk 2 1 3)] empty_db in
  let a := an_appeal "lead-1" 1 in
  let db2 := run [CreateAppeal a 0 "2024-01-01T00:00:00";
                  CreateAppeal a 2 "2024-01-01T00:00:01"] db in
  tbl_leads db2 = [Lead.mk 1 "lead-1"] /\
  tbl_appeals db2 = [Appeal.mk 1 1 1 (Some 1) "2024-01-01T00:00:00" None;
                     Appeal.mk 2 1 1 (Some 2) "2024-01-01T00:00:01" None].
Proof. split; reflexivity. Qed.

(** ** Operator identifiers are unique in every reachable database *)

Lemma NoDup_snoc_fresh (ids : list Z) (n : Z) :
  NoDup ids -> (forall i, In i ids -> i < n) -> NoDup (ids ++ [n]).
Proof.
  intros Hnd Hlt. induction Hnd as [|i ids Hnotin _ IH]; simpl.
  - constructor; [intros []|constructor].
  - constructor.
    + intros Hin. apply in_app_or in Hin as [Hin | [Heq | []]]; [contradiction|].
      specialize (Hlt i (or_introl eq_refl)). lia.
    + apply IH. intros j Hj. apply Hlt. now right.
Qed.

Lemma handle_operator_ids (r : request) (db : DB) :
  NoDup (map Operator.id (tbl_operators db)) ->
  NoDup (map Operator.id (tbl_operators (handle r db))).
Proof.
  intros Hnd. destruct r as [o| |i u|s| |os|s|a x now| |]; simpl; try assumption.
  - rewrite map_app. simpl. apply NoDup_snoc_fresh; [assumption|].
    intros i. apply next_rowid_gt.
  - unfold update_operator. rewrite bind_run. unfold get.
    destruct (find _ (tbl_operators db)); simpl; [|assumption].
    rewrite map_map. erewrite map_ext; [eassumption|].
    intros o. simpl. now destruct (Operator.id o =? i).
  - destruct (create_appeal_db a x now db) as [added ->]. assumption.
Qed.

Lemma reachable_operator_ids (db : DB) :
  reachable db -> NoDup (map Operator.id (tbl_operators db)).
Proof.
  intros [rs ->].
  assert (H : forall d, NoDup (map Operator.id (tbl_operators d)) ->
                        NoDup (map Operator.id (tbl_operators (run rs d)))).
  { induction rs as [|r rs IH]; intros d Hd; [assumption|].
    rewrite run_cons. apply IH. now apply handle_operator_ids. }
  apply H. constructor.
Qed.

(** Were the two rows returned in the other order, operator 2 would be drawn
    on every ticket and operator 1 on none. *)
Lemma equal_weights_other_order (x : Z) :
  select_operator
    [(Operator.mk 2 "O2" (Some true) (Some 5), 3);
     (Operator.mk 1 "O1" (Some true) (Some 5), 3)] x = inr (Some 2).
Proof.
  unfold select_operator, positive_pairs. cbn [filter map fst snd Z.gtb Z.compare].
  cbn [zip_star map fst snd unpack2 and_then].
  change (sum [3; 3] >? 0) with true. cbv iota.
  unfold choices, accumulate. cbn [accumulate_from List.length Nat.eqb negb last_opt].
  change (0 + 3 + 3 <=? 0) with false. cbv iota.
  cbn [Nat.sub bisect]. change (0 + 3) with 3.
  destruct (x <? 3); reflexivity.
Qed.

(** * The other endpoints and the service as a whole *)

(** ** [update_operator] *)

Lemma find_none_iff {A} (f : A -> bool) (l : list A) :
  find f l = None <-> forall a, In a l -> f a = false.
Proof.
  split.
  - intros H a Hin. now apply (find_none f l H).
  - intros H. induction l as [|b l IH]; [reflexivity|]. simpl.
    rewrite (H b (or_introl eq_refl)). apply IH. intros a Ha. apply H. now right.
Qed.

Lemma update_operator_run (i : Z) (u : OperatorUpdate.t) (db : DB) :
  update_operator i u db =
  match find (fun o => Operator.id o =? i) (tbl_operators db) with
  | None => (inl (HTTPException 404), db)
  | Some o =>
      (inr (apply_update u o),
       set_operators (map (fun o => if Operator.id o =? i then apply_update u o else o)
                          (tbl_operators db)) db)
  end.
Proof.
  unfold update_operator. rewrite bind_run. unfold get.
  now destruct (find _ (tbl_operators db)).
Qed.

Lemma driver_update_operator_run (i : Z) (u : OperatorUpdate.t) (db : DB) :
  Driver.update_operator i u db =
  if sqlite_integer i then
    match find (fun o => Operator.id o =? i) (tbl_operators db) with
    | None => (inl (HTTPException 404), db)
    | Some _ => if update_fits u then update_operator i u db
                else (inl OverflowError, db)
    end
  else (inl OverflowError, db).
Proof.
  unfold Driver.update_operator. rewrite bind_run, bind_parameter_run.
  destruct (sqlite_integer i); [|reflexivity].
  rewrite bind_run. unfold get.
  destruct (find _ (tbl_operators db)) as [o|]; [|reflexivity].
  rewrite bind_run. unfold update_fits.
  destruct (OperatorUpdate.max_load u) as [[m|]|]; try reflexivity.
  rewrite bind_parameter_run. now destruct (sqlite_integer m).
Qed.

(** X1: the three ways [update_operator] raises, and no other.  An
    [operator_id] SQLite cannot hold raises [OverflowError] at the lookup; an
    [operator_id] no operator has raises [HTTPException] with status 404; and
    for an operator that exists, a [max_load] in the body that SQLite cannot
    hold raises [OverflowError] at the commit.  In each case the database is
    left as it was. *)
Theorem update_operator_raises (i : Z) (u : OperatorUpdate.t) (db : DB) (e : exn) :
  (fst (Driver.update_operator i u db) = inl e <->
   (sqlite_integer i = false /\ e = OverflowError) \/
   (sqlite_integer i = true /\
    (forall o, In o (tbl_operators db) -> Operator.id o <> i) /\
    e = HTTPException 404) \/
   (sqlite_integer i = true /\
    (exists o, In o (tbl_operators db) /\ Operator.id o = i) /\
    (exists m, OperatorUpdate.max_load u = Some (Some m) /\
               sqlite_integer m = false) /\
    e = OverflowError)) /\
  (fst (Driver.update_operator i u db) = inl e ->
   snd (Driver.update_operator i u db) = db).
Proof.
  rewrite driver_update_operator_run.
  destruct (sqlite_integer i) eqn:Hi.
  2:{ split; [|reflexivity]. split.
      - intros H. injection H as <-. now left.
      - intros [[_ ->] | [(H & _) | (H & _)]]; [reflexivity|discriminate|discriminate]. }
  destruct (find _ (tbl_operators db)) as [o|] eqn:E.
  - apply find_some in E as [Ho Hid]. apply Z.eqb_eq in Hid.
    unfold update_fits. rewrite update_operator_run.
    destruct (find (fun o0 => Operator.id o0 =? i) (tbl_operators db)) as [o'|] eqn:E'.
    2:{ pose proof (find_none _ _ E' o Ho) as Hf. simpl in Hf.
        apply Z.eqb_neq in Hf. contradiction. }
    destruct (OperatorUpdate.max_load u) as [[m|]|] eqn:Hm;
      [destruct (sqlite_integer m) eqn:Hfit|..]; cbn [fst snd];
      (split; [split|]); try discriminate; try reflexivity.
    + intros [[H _] | [(_ & Hnone & _) | (_ & _ & (m' & Hm' & Hfit') & _)]];
        [discriminate|now apply Hnone in Ho|].
      injection Hm' as <-. congruence.
    + intros H. injection H as <-. right. right.
      repeat split; [now exists o|now exists m].
    + intros [[H _] | [(_ & Hnone & _) | (_ & _ & _ & ->)]];
        [discriminate|now apply Hnone in Ho|reflexivity].
    + intros [[H _] | [(_ & Hnone & _) | (_ & _ & (m' & Hm' & _) & _)]];
        [discriminate|now apply Hnone in Ho|discriminate].
    + intros [[H _] | [(_ & Hnone & _) | (_ & _ & (m' & Hm' & _) & _)]];
        [discriminate|now apply Hnone in Ho|discriminate].
  - cbn [fst snd]. split; [|reflexivity]. split.
    + intros H. injection H as <-. right. left. repeat split.
      intros o Ho Hid. pose proof (find_none _ _ E o Ho) as Hf. simpl in Hf.
      apply Z.eqb_neq in Hf. contradiction.
    + intros [[H _] | [(_ & _ & ->) | (_ & (o & Ho & Hid) & _)]];
        [discriminate|reflexivity|].
      pose proof (find_none _ _ E o Ho) as Hf. simpl in Hf.
      apply Z.eqb_neq in Hf. contradiction.
Qed.

(** On Scenario B: no operator 2; an identifier of 2^63; a [max_load] of
    2^63 for operator 1. *)
Lemma update_operator_raises_example :
  Driver.update_operator 2 (OperatorUpdate.mk (Some (Some false)) None)
                         scenario_zero_weight
    = (inl (HTTPException 404), scenario_zero_weight) /\
  Driver.update_operator (2 ^ 63) empty_update scenario_zero_weight
    = (inl OverflowError, scenario_zero_weight) /\
  Driver.update_operator 1 (OperatorUpdate.mk None (Some (Some (2 ^ 63))))
                         scenario_zero_weight
    = (inl OverflowError, scenario_zero_weight).
Proof.
  assert (H : forall i u e,
             fst (Driver.update_operator i u scenario_zero_weight) = inl e ->
             Driver.update_operator i u scenario_zero_weight
             = (inl e, scenario_zero_weight)).
  { intros i u e He.
    pose proof (proj2 (update_operator_raises i u scenario_zero_weight e) He) as Hdb.
    destruct (Driver.update_operator i u scenario_zero_weight) as [r d].
    simpl in *. now subst. }
  split; [|split]; apply H.
  - apply (proj2 (proj1 (update_operator_raises 2 _ scenario_zero_weight _))).
    right. left. repeat split. intros o [<- | []]. discriminate.
  - apply (proj2 (proj1 (update_operator_raises (2 ^ 63) _ scenario_zero_weight _))).
    left. now split.
  - apply (proj2 (proj1 (update_operator_raises 1 _ scenario_zero_weight _))).
    right. right. repeat split.
    + exists (the_operator "O3" 5). split; [now left|reflexivity].
    + now exists (2 ^ 63).
Defined.

Lemma find_first_unique {A} (f : A -> bool) (key : A -> Z) (l : list A) (a : A) :
  (forall b, f b = true <-> key b = key a) ->
  NoDup (map key l) -> In a l -> find f l = Some a.
Proof.
  intros Hf Hnd Hin.
  destruct (find f l) as [b|] eqn:E.
  - apply find_some in E as [Hb Hfb]. apply Hf in Hfb.
    f_equal. eapply NoDup_map_inj; eassumption.
  - pose proof (find_none f l E a Hin) as Hfa.
    rewrite (proj2 (Hf a) eq_refl) in Hfa. discriminate.
Qed.

(** X2: on an operator of the table (identifiers unique), with an
    identifier and a body SQLite can hold, [update_operator] answers with a
    row that has the identifier and the name of the operator and, for
    [is_active] and for [max_load], the value of the body when the body has
    the field (an explicit null included) and the old value when it has not;
    the row is stored in place of the old one, the rows of other operators
    and the other four tables are as before, and no identifier moves. *)
Theorem update_operator_found (u : OperatorUpdate.t) (db : DB) (op : Operator.t) :
  NoDup (map Operator.id (tbl_operators db)) ->
  In op (tbl_operators db) ->
  sqlite_integer (Operator.id op) = true ->
  (forall m, OperatorUpdate.max_load u = Some (Some m) -> sqlite_integer m = true) ->
  let response := fst (Driver.update_operator (Operator.id op) u db) in
  let db' := snd (Driver.update_operator (Operator.id op) u db) in
  exists r,
    response = inr r /\
    Operator.id r = Operator.id op /\
    Operator.name r = Operator.name op /\
    Operator.is_active r =
      match OperatorUpdate.is_active u with
      | Some v => v
      | None => Operator.is_active op
      end /\
    Operator.max_load r =
      match OperatorUpdate.max_load u with
      | Some v => v
      | None => Operator.max_load op
      end /\
    In r (tbl_operators db') /\
    (forall o, Operator.id o <> Operator.id op ->
       (In o (tbl_operators db') <-> In o (tbl_operators db))) /\
    map Operator.id (tbl_operators db') = map Operator.id (tbl_operators db) /\
    map Operator.name (tbl_operators db') = map Operator.name (tbl_operators db) /\
    tbl_sources db' = tbl_sources db /\
    tbl_operator_sources db' = tbl_operator_sources db /\
    tbl_leads db' = tbl_leads db /\
    tbl_appeals db' = tbl_appeals db.
Proof.
  intros Hnd Hop Hid Hbody. cbv zeta.
  assert (Hfits : update_fits u = true).
  { unfold update_fits. destruct (OperatorUpdate.max_load u) as [[m|]|]; auto. }
  assert (Hfind : find (fun o => Operator.id o =? Operator.id op) (tbl_operators db)
                  = Some op).
  { apply (find_first_unique _ Operator.id); try assumption.
    intros b. apply Z.eqb_eq. }
  rewrite driver_update_operator_run, Hid, Hfind, Hfits, update_operator_run, Hfind.
  cbn [fst snd set_operators tbl_operators tbl_sources tbl_operator_sources
       tbl_leads tbl_appeals].
  exists (apply_update u op). repeat split.
  - apply in_map_iff. exists op. split; [|assumption]. now rewrite Z.eqb_refl.
  - intros Hin. apply in_map_iff in Hin as (o' & Ho' & Hin').
    destruct (Operator.id o' =? Operator.id op) eqn:E.
    + apply Z.eqb_eq in E. subst o. simpl in H. congruence.
    + now subst o'.
  - intros Hin. apply in_map_iff. exists o. split; [|assumption].
    apply Z.eqb_neq in H. now rewrite H.
  - rewrite map_map. apply map_ext. intros o.
    now destruct (Operator.id o =? Operator.id op).
  - rewrite map_map. apply map_ext. intros o.
    now destruct (Operator.id o =? Operator.id op).
Qed.

(** On O3 (active, capacity 5): a body with a null [is_active] and a
    [max_load] of 7 stores both; a body with [max_load] alone keeps
    [is_active]; a body with [is_active] alone keeps [max_load]. *)
Lemma update_operator_found_example :
  fst (Driver.update_operator 1 (OperatorUpdate.mk (Some None) (Some (Some 7)))
                              scenario_zero_weight)
    = inr (Operator.mk 1 "O3" None (Some 7)) /\
  fst (Driver.update_operator 1 (OperatorUpdate.mk None (Some (Some 7)))
                              scenario_zero_weight)
    = inr (Operator.mk 1 "O3" (Some true) (Some 7)) /\
  fst (Driver.update_operator 1 (OperatorUpdate.mk (Some (Some false)) None)
                              scenario_zero_weight)
    = inr (Operator.mk 1 "O3" (Some false) (Some 5)).
Proof.
  assert (H : forall u,
             (forall m, OperatorUpdate.max_load u = Some (Some m) ->
                        sqlite_integer m = true) ->
             exists r,
               fst (Driver.update_operator 1 u scenario_zero_weight) = inr r /\
               r = Operator.mk (Operator.id r) (Operator.name r)
                               (Operator.is_active r) (Operator.max_load r) /\
               Operator.id r = 1 /\ Operator.name r = "O3" /\
               Operator.is_active r =
                 match OperatorUpdate.is_active u with
                 | Some v => v
                 | None => Some true
                 end /\
               Operator.max_load r =
                 match OperatorUpdate.max_load u with
                 | Some v => v
                 | None => Some 5
                 end).
  { intros u Hu.
    destruct (update_operator_found u scenario_zero_weight (the_operator "O3" 5)
                ltac:(repeat constructor; intros []) (or_introl eq_refl) eq_refl Hu)
      as (r & Hr & Hid & Hname & Hact & Hmax & _).
    exists r. repeat split; try assumption. now destruct r. }
  split; [|split].
  - destruct (H (OperatorUpdate.mk (Some None) (Some (Some 7))))
      as (r & Hr & Heq & Hid & Hname & Hact & Hmax).
    { intros m Hm. injection Hm as <-. reflexivity. }
    rewrite Hr, Heq, Hid, Hname, Hact, Hmax. reflexivity.
  - destruct (H (OperatorUpdate.mk None (Some (Some 7))))
      as (r & Hr & Heq & Hid & Hname & Hact & Hmax).
    { intros m Hm. injection Hm as <-. reflexivity. }
    rewrite Hr, Heq, Hid, Hname, Hact, Hmax. reflexivity.
  - destruct (H (OperatorUpdate.mk (Some (Some false)) None))
      as (r & Hr & Heq & Hid & Hname & Hact & Hmax).
    { intros m Hm. discriminate. }
    rewrite Hr, Heq, Hid, Hname, Hact, Hmax. reflexivity.
Defined.

Lemma apply_update_twice (u : OperatorUpdate.t) (o : Operator.t) :
  apply_update u (apply_update u o) = apply_update u o.
Proof.
  unfold apply_update. simpl.
  now destruct (OperatorUpdate.is_active u), (OperatorUpdate.max_load u).
Qed.

Lemma find_map_update (i : Z) (u : OperatorUpdate.t) (ops : list Operator.t) :
  find (fun o => Operator.id o =? i)
       (map (fun o => if Operator.id o =? i then apply_update u o else o) ops)
  = option_map (apply_update u) (find (fun o => Operator.id o =? i) ops).
Proof.
  induction ops as [|o ops IH]; [reflexivity|]. simpl.
  destruct (Operator.id o =? i) eqn:E; simpl; rewrite E; [reflexivity|apply IH].
Qed.

(** X3: [update_operator] is idempotent: sent a second time, the same request
    gets the same answer and leaves the database the first one left, whether
    the operator exists or not. *)
Theorem update_operator_idempotent (i : Z) (u : OperatorUpdate.t) (db : DB) :
  update_operator i u (snd (update_operator i u db)) = update_operator i u db.
Proof.
  rewrite !update_operator_run.
  destruct (find _ (tbl_operators db)) as [o|] eqn:E; cbn [snd].
  - cbn [set_operators tbl_operators tbl_sources tbl_operator_sources
         tbl_leads tbl_appeals].
    rewrite find_map_update, E. cbn [option_map].
    rewrite apply_update_twice. f_equal. unfold set_operators. simpl. f_equal.
    rewrite map_map. apply map_ext. intros o'.
    destruct (Operator.id o' =? i) eqn:E'; simpl; rewrite E';
      [apply apply_update_twice|reflexivity].
  - now rewrite E.
Qed.

(** ** What every reachable database satisfies *)

Lemma ids_from_one_S (n : nat) :
  ids_from_one (S n) = ids_from_one n ++ [Z.of_nat (S n)].
Proof. unfold ids_from_one. now rewrite seq_S, map_app. Qed.

Lemma fold_max_snoc (ids : list Z) (x : Z) :
  0 <= x -> fold_right Z.max 0 (ids ++ [x]) = Z.max (fold_right Z.max 0 ids) x.
Proof.
  intros Hx. induction ids as [|i ids IH]; simpl; [lia|]. rewrite IH. lia.
Qed.

Lemma next_rowid_ids_from_one (n : nat) :
  next_rowid (ids_from_one n) = Z.of_nat (S n).
Proof.
  unfold next_rowid.
  assert (H : fold_right Z.max 0 (ids_from_one n) = Z.of_nat n); [|lia].
  induction n as [|n IH]; [reflexivity|].
  rewrite ids_from_one_S, fold_max_snoc, IH by lia. lia.
Qed.

(** A row inserted with the next rowid continues the numbering. *)
Lemma ids_snoc {A} (key : A -> Z) (rows : list A) (row : A) :
  map key rows = ids_from_one (List.length rows) ->
  key row = next_rowid (map key rows) ->
  map key (rows ++ [row]) = ids_from_one (List.length (rows ++ [row])).
Proof.
  intros Hrows Hrow.
  rewrite map_app, length_app, Nat.add_1_r, ids_from_one_S. simpl.
  now rewrite Hrow, Hrows, next_rowid_ids_from_one.
Qed.

(** References survive when the tables they point into only gain rows and
    operators keep their identifiers. *)
Lemma appeal_refs_mono (db db' : DB) (a : Appeal.t) :
  (forall l, In l (tbl_leads db) -> In l (tbl_leads db')) ->
  (forall op, In op (tbl_operators db) ->
     exists op', In op' (tbl_operators db') /\ Operator.id op' = Operator.id op) ->
  (forall os, In os (tbl_operator_sources db) -> In os (tbl_operator_sources db')) ->
  appeal_refs db a -> appeal_refs db' a.
Proof.
  intros Hl Hop Hos [(l & Hin & Hid) Hassigned]. split.
  - exists l. auto.
  - intros i Hi. destruct (Hassigned i Hi) as [(op & Hinop & Hidop) (os & Hinos & Hrest)].
    split.
    + destruct (Hop op Hinop) as (op' & Hin' & Hid'). exists op'. split; congruence.
    + exists os. auto.
Qed.

Lemma resolved_lead_in (e : string) (db : DB) :
  In (resolved_lead e db) (tbl_leads (after_lead e db)) /\
  Lead.external_id (resolved_lead e db) = e.
Proof.
  unfold resolved_lead, after_lead.
  destruct (find _ (tbl_leads db)) as [l|] eqn:E.
  - apply find_some in E as [Hin He]. split; [assumption|].
    now apply String.eqb_eq in He.
  - split; [|reflexivity]. simpl. apply in_or_app. right. now left.
Qed.

Lemma after_lead_leads (e : string) (db : DB) :
  tbl_leads (after_lead e db) = tbl_leads db \/
  ((forall l, In l (tbl_leads db) -> Lead.external_id l <> e) /\
   tbl_leads (after_lead e db) =
     tbl_leads db ++ [Lead.mk (next_rowid (map Lead.id (tbl_leads db))) e]).
Proof.
  unfold after_lead. destruct (find _ (tbl_leads db)) as [l|] eqn:E; [now left|].
  right. split; [|reflexivity]. intros l Hin He.
  pose proof (find_none _ _ E l Hin) as Hf. simpl in Hf.
  apply String.eqb_neq in Hf. contradiction.
Qed.

Lemma NoDup_snoc {A} (l : list A) (a : A) :
  NoDup l -> ~ In a l -> NoDup (l ++ [a]).
Proof.
  intros Hnd Hnotin. induction Hnd as [|b l Hb _ IH]; simpl.
  - constructor; [intros []|constructor].
  - constructor.
    + intros Hin. apply in_app_or in Hin as [Hin | [Heq | []]]; [contradiction|].
      apply Hnotin. now left.
    + apply IH. intros Hin. apply Hnotin. now right.
Qed.

Lemma ids_from_one_in (n : nat) (x : Z) :
  In x (ids_from_one n) <-> 1 <= x <= Z.of_nat n.
Proof.
  unfold ids_from_one. rewrite in_map_iff. split.
  - intros (k & <- & Hk). apply in_seq in Hk. lia.
  - intros Hx. exists (Z.to_nat x). split; [lia|]. apply in_seq. lia.
Qed.

Lemma ids_from_one_NoDup (n : nat) : NoDup (ids_from_one n).
Proof.
  induction n as [|n IH]; [constructor|].
  rewrite ids_from_one_S. apply NoDup_snoc; [assumption|].
  intros Hin. apply ids_from_one_in in Hin. lia.
Qed.

Lemma after_lead_consistent (e : string) (db : DB) :
  map Lead.id (tbl_leads db) = ids_from_one (List.length (tbl_leads db)) ->
  NoDup (map Lead.external_id (tbl_leads db)) ->
  map Lead.id (tbl_leads (after_lead e db))
    = ids_from_one (List.length (tbl_leads (after_lead e db))) /\
  NoDup (map Lead.external_id (tbl_leads (after_lead e db))) /\
  (forall l, In l (tbl_leads db) -> In l (tbl_leads (after_lead e db))).
Proof.
  intros Hids Hnd.
  destruct (after_lead_leads e db) as [-> | [Hnew ->]]; [auto|].
  split; [|split].
  - now apply ids_snoc.
  - rewrite map_app. simpl. apply NoDup_snoc; [assumption|].
    intros Hin. apply in_map_iff in Hin as (l & He & Hl). now apply (Hnew l Hl).
  - intros l Hl. apply in_or_app. now left.
Qed.

(** The appeal a call inserts refers to rows that exist. *)
Lemma new_appeal_refs (a : AppealCreate.t) (x : Z) (now : string) (db : DB)
    (o : option Z) :
  select_operator (candidates db (AppealCreate.source_id a)) x = inr o ->
  appeal_refs (insert_appeal (new_appeal a now db o)
                             (after_lead (AppealCreate.external_id a) db))
              (new_appeal a now db o).
Proof.
  intros Hsel.
  destruct (after_lead_frame (AppealCreate.external_id a) db) as (Ho & _ & Hos & _).
  split.
  - exists (resolved_lead (AppealCreate.external_id a) db). split; [|reflexivity].
    apply resolved_lead_in.
  - intros i Hi. simpl in Hi. subst o.
    apply select_operator_inv in Hsel as (op & w & Hin & Hid & Hw).
    apply in_candidates in Hin as (Hop & _ & os & Hinos & Hl & Hwos).
    apply linked_iff in Hl as [Hl1 Hl2]. simpl. rewrite Ho, Hos. split.
    + now exists op.
    + exists os. repeat split; try assumption; congruence.
Qed.

Lemma create_appeal_consistent (a : AppealCreate.t) (x : Z) (now : string) (db : DB) :
  consistent db -> consistent (snd (create_appeal a x now db)).
Proof.
  intros [Hop Hsrc Hos Hlead Happ Hext Hrefs].
  destruct (after_lead_frame (AppealCreate.external_id a) db) as (Eo & Es & Eos & Ea).
  destruct (after_lead_consistent (AppealCreate.external_id a) db Hlead Hext)
    as (Hlead' & Hext' & Hsub).
  assert (Hold : forall r, In r (tbl_appeals db) ->
                   appeal_refs (after_lead (AppealCreate.external_id a) db) r).
  { intros r Hr. apply (appeal_refs_mono db); [assumption| | |now apply Hrefs].
    - intros op Hin. exists op. rewrite Eo. now split.
    - intros os Hin. now rewrite Eos. }
  rewrite create_appeal_run.
  destruct (select_operator _ x) as [e|o] eqn:Hsel; cbn [snd].
  - constructor; rewrite ?Eo, ?Es, ?Eos, ?Ea; try assumption.
  - constructor; cbn [insert_appeal tbl_operators tbl_sources tbl_operator_sources
                      tbl_leads tbl_appeals];
      rewrite ?Eo, ?Es, ?Eos, ?Ea; try assumption.
    + now apply ids_snoc.
    + intros r Hr. apply in_app_or in Hr as [Hr | [<- | []]].
      * apply (appeal_refs_mono (after_lead (AppealCreate.external_id a) db));
          auto.
        intros op Hin. now exists op.
      * exact (new_appeal_refs a x now db o Hsel).
Qed.

Lemma handle_consistent (r : request) (db : DB) :
  consistent db -> consistent (handle r db).
Proof.
  intros H. destruct r as [o| |i u|s| |os|s|a x now| |]; try exact H.
  - destruct H as [Hop Hsrc Hos Hlead Happ Hext Hrefs].
    constructor; simpl; try assumption.
    + now apply ids_snoc.
    + intros r Hr. apply (appeal_refs_mono db); auto.
      intros op Hin. exists op. split; [|reflexivity]. simpl.
      apply in_or_app. now left.
  - simpl. rewrite update_operator_run.
    destruct (find _ (tbl_operators db)); [|exact H].
    destruct H as [Hop Hsrc Hos Hlead Happ Hext Hrefs].
    assert (Hids : map Operator.id
                     (map (fun o => if Operator.id o =? i then apply_update u o else o)
                          (tbl_operators db)) = map Operator.id (tbl_operators db)).
    { rewrite map_map. apply map_ext. intros o. now destruct (Operator.id o =? i). }
    constructor; simpl; try assumption.
    + now rewrite Hids, length_map.
    + intros r Hr. apply (appeal_refs_mono db); auto.
      intros op Hin. simpl.
      exists (if Operator.id op =? i then apply_update u op else op). split.
      * apply in_map_iff. now exists op.
      * now destruct (Operator.id op =? i).
  - destruct H as [Hop Hsrc Hos Hlead Happ Hext Hrefs].
    constructor; simpl; try assumption.
    now apply ids_snoc.
  - destruct H as [Hop Hsrc Hos Hlead Happ Hext Hrefs].
    constructor; simpl; try assumption.
    + now apply ids_snoc.
    + intros r Hr. apply (appeal_refs_mono db); auto.
      * intros op Hin. now exists op.
      * intros os' Hin. simpl. apply in_or_app. now left.
  - now apply create_appeal_consistent.
Qed.

Lemma run_snoc (rs : list request) (r : request) (db : DB) :
  run (rs ++ [r]) db = handle r (run rs db).
Proof. unfold run. now rewrite fold_left_app. Qed.

Lemma empty_db_consistent : consistent empty_db.
Proof. constructor; try reflexivity; [constructor|intros a []]. Qed.

Lemma run_consistent (rs : list request) (db : DB) :
  consistent db -> consistent (run rs db).
Proof.
  revert db. induction rs as [|r rs IH]; intros db H; [assumption|].
  rewrite run_cons. apply IH. now apply handle_consistent.
Qed.

(** X4: whatever requests the service has answered since the empty database,
    the identifiers in each of the five tables are 1, 2, 3, ... in the order
    of the rows; in particular no identifier occurs twice and an identifier
    is never reused. *)
Theorem reachable_ids_consecutive (rs : list request) :
  let db := run rs empty_db in
  map Operator.id (tbl_operators db) = ids_from_one (List.length (tbl_operators db)) /\
  map Source.id (tbl_sources db) = ids_from_one (List.length (tbl_sources db)) /\
  map OperatorSource.id (tbl_operator_sources db)
    = ids_from_one (List.length (tbl_operator_sources db)) /\
  map Lead.id (tbl_leads db) = ids_from_one (List.length (tbl_leads db)) /\
  map Appeal.id (tbl_appeals db) = ids_from_one (List.length (tbl_appeals db)).
Proof.
  destruct (run_consistent rs empty_db empty_db_consistent)
    as [Hop Hsrc Hos Hlead Happ _ _].
  cbv zeta. auto.
Qed.

(** X5: whatever requests the service has answered since the empty database,
    no two leads have the same external identifier: the find-or-create of
    [create_appeal] keeps the column unique by itself. *)
Theorem reachable_external_ids_unique (rs : list request) :
  NoDup (map Lead.external_id (tbl_leads (run rs empty_db))).
Proof. apply (run_consistent rs empty_db empty_db_consistent). Qed.

(** X6: whatever requests the service has answered since the empty database,
    every appeal refers to a lead of the table, and every assigned appeal to
    an operator of the table that has an affinity row of positive weight for
    the source of the appeal. *)
Theorem reachable_appeal_references (rs : list request) (a : Appeal.t) :
  In a (tbl_appeals (run rs empty_db)) ->
  (exists l, In l (tbl_leads (run rs empty_db)) /\ Lead.id l = Appeal.lead_id a) /\
  (forall i, Appeal.operator_id a = Some i ->
     (exists op, In op (tbl_operators (run rs empty_db)) /\ Operator.id op = i) /\
     (exists os, In os (tbl_operator_sources (run rs empty_db)) /\
                 OperatorSource.operator_id os = i /\
                 OperatorSource.source_id os = Appeal.source_id a /\
                 0 < OperatorSource.weight os)).
Proof.
  intros Hin.
  exact (appeal_references _ (run_consistent rs empty_db empty_db_consistent) a Hin).
Qed.

Lemma reachable_appeal_references_scenario_D :
  exists l, In l (tbl_leads scenario_full) /\ Lead.id l = 1.
Proof.
  destruct (reachable_appeal_references
              [CreateOperator (OperatorCreate.mk "O5" true 1);
               CreateSource (SourceCreate.mk "S");
               CreateOperatorSource (OperatorSourceCreate.mk 1 1 1);
               CreateAppeal (AppealCreate.mk "lead-0" 1 None) 0 "2024-01-01T00:00:00"]
              (Appeal.mk 1 1 1 (Some 1) "2024-01-01T00:00:00" None)
              (or_introl eq_refl)) as [H _].
  exact H.
Defined.

(** ** Nothing is deleted or rewritten *)

Lemma extends_refl (db : DB) : extends db db.
Proof. repeat split; exists []; now rewrite app_nil_r. Qed.

Lemma extends_trans (db1 db2 db3 : DB) :
  extends db1 db2 -> extends db2 db3 -> extends db1 db3.
Proof.
  intros ([o1 Ho1] & [s1 Hs1] & [os1 Hos1] & [l1 Hl1] & [a1 Ha1])
         ([o2 Ho2] & [s2 Hs2] & [os2 Hos2] & [l2 Hl2] & [a2 Ha2]).
  repeat split.
  - exists (o1 ++ o2). now rewrite Ho2, Ho1, app_assoc.
  - exists (s1 ++ s2). now rewrite Hs2, Hs1, app_assoc.
  - exists (os1 ++ os2). now rewrite Hos2, Hos1, app_assoc.
  - exists (l1 ++ l2). now rewrite Hl2, Hl1, app_assoc.
  - exists (a1 ++ a2). now rewrite Ha2, Ha1, app_assoc.
Qed.

Ltac same_rows := exists []; now rewrite app_nil_r.

Lemma handle_extends (r : request) (db : DB) : extends db (handle r db).
Proof.
  destruct r as [o| |i u|s| |os|s|a x now| |]; try apply extends_refl.
  - repeat split; simpl; try same_rows.
    rewrite map_app. now eexists.
  - simpl. rewrite update_operator_run.
    destruct (find _ (tbl_operators db)); [|apply extends_refl].
    repeat split; simpl; try same_rows.
    exists []. rewrite app_nil_r, map_map. apply map_ext.
    intros o. now destruct (Operator.id o =? i).
  - repeat split; simpl; try same_rows. now eexists.
  - repeat split; simpl; try same_rows. now eexists.
  - simpl. destruct (create_appeal_db a x now db) as [added ->].
    repeat split; simpl; try same_rows; [|now exists added].
    destruct (after_lead_leads (AppealCreate.external_id a) db) as [-> | [_ ->]];
      [same_rows|now eexists].
Qed.

(** X7: no sequence of requests deletes or rewrites anything but the
    [is_active] and [max_load] of operators: the sources, affinity rows, leads
    and appeals that were there are still the first rows of their tables,
    field by field, and the operators still carry their identifiers and names
    in the same order. *)
Theorem run_extends (rs : list request) (db : DB) : extends db (run rs db).
Proof.
  revert db. induction rs as [|r rs IH]; intros db; [apply extends_refl|].
  rewrite run_cons. eapply extends_trans; [apply handle_extends|apply IH].
Qed.

(** ** [list_leads] *)

(** X8: in every reachable database, [list_leads] shows each appeal of the
    table under exactly one lead, the lead its [lead_id] names. *)
Theorem list_leads_partition (rs : list request) (a : Appeal.t) :
  In a (tbl_appeals (run rs empty_db)) ->
  exists listing l appeals,
    list_leads (run rs empty_db) = (inr listing, run rs empty_db) /\
    In (l, appeals) listing /\ In a appeals /\ Lead.id l = Appeal.lead_id a /\
    forall l' appeals', In (l', appeals') listing -> In a appeals' -> l' = l.
Proof.
  intros Hin.
  pose proof (run_consistent rs empty_db empty_db_consistent) as Hc.
  set (db := run rs empty_db) in *.
  destruct (appeal_references db Hc a Hin) as [(l & Hl & Hid) _].
  eexists. exists l, (filter (fun r => Appeal.lead_id r =? Lead.id l) (tbl_appeals db)).
  split; [reflexivity|]. split; [|split; [|split]].
  - apply in_map_iff. now exists l.
  - apply filter_In. split; [assumption|]. now apply Z.eqb_eq.
  - assumption.
  - intros l' appeals' Hentry Ha.
    apply in_map_iff in Hentry as (l0 & Heq & Hl0). injection Heq as -> <-.
    apply filter_In in Ha as [_ Ha]. apply Z.eqb_eq in Ha.
    apply (NoDup_map_inj Lead.id (tbl_leads db)); try assumption; [|congruence].
    rewrite (lead_ids db Hc). apply ids_from_one_NoDup.
Qed.

Lemma list_leads_partition_scenario_D :
  exists listing l appeals,
    list_leads scenario_full = (inr listing, scenario_full) /\
    In (l, appeals) listing /\
    In (Appeal.mk 1 1 1 (Some 1) "2024-01-01T00:00:00" None) appeals /\
    Lead.id l = 1.
Proof.
  destruct (list_leads_partition
              [CreateOperator (OperatorCreate.mk "O5" true 1);
               CreateSource (SourceCreate.mk "S");
               CreateOperatorSource (OperatorSourceCreate.mk 1 1 1);
               CreateAppeal (AppealCreate.mk "lead-0" 1 None) 0 "2024-01-01T00:00:00"]
              (Appeal.mk 1 1 1 (Some 1) "2024-01-01T00:00:00" None)
              (or_introl eq_refl)) as (listing & l & appeals & H1 & H2 & H3 & H4 & _).
  exists listing, l, appeals. repeat split; assumption.
Defined.

(** ** The three outcomes of [create_appeal] *)

Lemma positive_pairs_nil_iff (candidates : list (Operator.t * Z)) :
  positive_pairs candidates = [] <->
  forall op w, In (op, w) candidates -> w <= 0.
Proof.
  split.
  - intros Hnil op w Hin. destruct (Z.le_gt_cases w 0) as [|Hw]; [assumption|].
    assert (H : In (Operator.id op, w) (positive_pairs candidates))
      by (apply positive_pairs_in; exists op; repeat split; [assumption|lia]).
    rewrite Hnil in H. contradiction.
  - intros H. destruct (positive_pairs candidates) as [|[o w] ps] eqn:E;
      [reflexivity|].
    assert (Hin : In (o, w) (positive_pairs candidates)) by (rewrite E; now left).
    apply positive_pairs_in in Hin as (op & Hin & _ & Hw). apply H in Hin. lia.
Qed.

Lemma select_operator_cases (candidates : list (Operator.t * Z)) (x : Z) :
  (candidates = [] /\ select_operator candidates x = inr None) \/
  (candidates <> [] /\ positive_pairs candidates = [] /\
   select_operator candidates x = inl ValueError) \/
  (positive_pairs candidates <> [] /\
   exists o, select_operator candidates x = inr (Some o)).
Proof.
  destruct candidates as [|c cs] eqn:Ec; [now left|]. rewrite <- Ec.
  assert (Hne : candidates <> []) by (rewrite Ec; discriminate).
  right. destruct (positive_pairs candidates) as [|p ps] eqn:Ep.
  - left. repeat split; [assumption|]. now apply select_operator_raises.
  - right. rewrite <- Ep.
    assert (Hp : positive_pairs candidates <> []) by (rewrite Ep; discriminate).
    split; [assumption|].
    destruct (select_operator_total candidates x Hp) as (o & _ & Ho & _).
    now exists o.
Qed.

(** Once the candidate rows are read, they decide among three outcomes. *)
Lemma create_appeal_cases (db : DB) (a : AppealCreate.t) (x : Z) (now : string) :
  let cands := candidates db (AppealCreate.source_id a) in
  let response := fst (create_appeal a x now db) in
  (cands = [] <->
   exists r, response = inr r /\ Appeal.operator_id r = None) /\
  (cands <> [] /\ (forall op w, In (op, w) cands -> w <= 0) <->
   response = inl ValueError) /\
  ((exists op w, In (op, w) cands /\ 0 < w) <->
   exists r o, response = inr r /\ Appeal.operator_id r = Some o) /\
  (forall e, response = inl e -> e = ValueError).
Proof.
  cbv zeta. rewrite create_appeal_run.
  set (cands := candidates db (AppealCreate.source_id a)).
  assert (Hpositive : positive_pairs cands <> [] ->
                      exists op w, In (op, w) cands /\ 0 < w).
  { intros Hp. destruct (positive_pairs cands) as [|[o' w] ps] eqn:E; [contradiction|].
    assert (Hin : In (o', w) (positive_pairs cands)) by (rewrite E; now left).
    apply positive_pairs_in in Hin as (op & Hin & _ & Hw). now exists op, w. }
  destruct (select_operator_cases cands x)
    as [[Hnil Hsel] | [(Hne & Hpos & Hsel) | (Hpos & o & Hsel)]];
    rewrite Hsel; cbn [fst];
    (split; [split; [intros H | intros (r & Hr & Hn)]
            | split; [split; [intros [H1 H2] | intros H]
                     | split; [split; [intros (op & w & Hin & Hw)
                                      | intros (r & o' & Hr & Ho)]
                              | intros e He]]]);
    try discriminate; try contradiction; try assumption.
  - now eexists.
  - rewrite Hnil in Hin. contradiction.
  - injection Hr as <-. discriminate.
  - reflexivity.
  - split; [assumption|]. now apply positive_pairs_nil_iff.
  - apply (proj1 (positive_pairs_nil_iff cands) Hpos) in Hin. lia.
  - congruence.
  - destruct (Hpositive Hpos) as (op & w & Hin & _). rewrite H in Hin. contradiction.
  - injection Hr as <-. discriminate.
  - exfalso. destruct (Hpositive Hpos) as (op & w & Hin & Hw).
    apply H2 in Hin. lia.
  - now eexists _, o.
  - now apply Hpositive.
Qed.

(** X9: [create_appeal] has four outcomes, whatever the ticket.  A
    [source_id] SQLite cannot hold raises [OverflowError] when the candidate
    rows are read.  Otherwise the candidate rows decide: no candidate row,
    and it returns an unassigned appeal; candidate rows none of which has a
    positive weight (zero or negative), and it raises [ValueError]; a
    candidate row of positive weight, and it returns an appeal assigned to an
    operator.  It raises nothing else: the errors of [random.choices], of
    [index] and of the subscript are out of reach. *)
Theorem create_appeal_outcomes (db : DB) (a : AppealCreate.t) (x : Z) (now : string) :
  let fits := sqlite_integer (AppealCreate.source_id a) in
  let cands := candidates db (AppealCreate.source_id a) in
  let response := fst (Driver.create_appeal a x now db) in
  (fits = false <-> response = inl OverflowError) /\
  (fits = true /\ cands = [] <->
   exists r, response = inr r /\ Appeal.operator_id r = None) /\
  (fits = true /\ cands <> [] /\ (forall op w, In (op, w) cands -> w <= 0) <->
   response = inl ValueError) /\
  (fits = true /\ (exists op w, In (op, w) cands /\ 0 < w) <->
   exists r o, response = inr r /\ Appeal.operator_id r = Some o) /\
  (forall e, response = inl e -> e = ValueError \/ e = OverflowError).
Proof.
  cbv zeta. rewrite driver_create_appeal_run.
  destruct (create_appeal_cases db a x now) as (H1 & H2 & H3 & H4).
  destruct (sqlite_integer (AppealCreate.source_id a)); cbn [fst].
  - split; [|split; [|split; [|split]]].
    + split; [discriminate|]. intros H. apply H4 in H. discriminate.
    + split; [intros [_ H]; now apply H1 | intros H; split; [reflexivity|now apply H1]].
    + split; [intros [_ H]; now apply H2 | intros H; split; [reflexivity|now apply H2]].
    + split; [intros [_ H]; now apply H3 | intros H; split; [reflexivity|now apply H3]].
    + intros e He. left. now apply H4.
  - split; [|split; [|split; [|split]]].
    + now split.
    + split; [intros [H _]; discriminate | intros (r & H & _); discriminate].
    + split; [intros [H _]; discriminate | discriminate].
    + split; [intros [H _]; discriminate | intros (r & o & H & _); discriminate].
    + intros e He. right. congruence.
Qed.

(** A single row of negative weight: the call raises [ValueError]; for a
    source 2^63 it raises [OverflowError]. *)
Lemma create_appeal_outcomes_negative_weight :
  let db := run [CreateOperator (OperatorCreate.mk "O" true 5);
                 CreateSource (SourceCreate.mk "S");
                 CreateOperatorSource (OperatorSourceCreate.mk 1 1 (-2))] empty_db in
  fst (Driver.create_appeal (an_appeal "lead-1" 1) 0 "2024-01-01T00:00:00" db)
  = inl ValueError /\
  fst (Driver.create_appeal (an_appeal "lead-1" (2 ^ 63)) 0 "2024-01-01T00:00:00" db)
  = inl OverflowError.
Proof.
  intros db. split.
  - apply (proj1 (proj1 (proj2 (proj2 (create_appeal_outcomes
                                         db (an_appeal "lead-1" 1) 0
                                         "2024-01-01T00:00:00"))))).
    split; [reflexivity|]. split; [discriminate|].
    intros op w [H | []]. injection H as _ <-. lia.
  - apply (proj1 (proj1 (create_appeal_outcomes db (an_appeal "lead-1" (2 ^ 63)) 0
                           "2024-01-01T00:00:00"))).
    reflexivity.
Defined.

Lemma later_equal_weight_never_drawn_example :
  select_operator (candidates scenario_equal_weights 1) 4 = inr (Some 1) /\
  select_operator (candidates scenario_equal_weights 1) 4 <> inr (Some 2).
Proof.
  split; [reflexivity|].
  apply later_equal_weight_never_drawn.
  intros [|[|i]] w H; simpl in H.
  - discriminate.
  - injection H as <-. exists O. split; [lia|reflexivity].
  - destruct i; discriminate.
Defined.

(** ** Capacity in a service whose operators are never updated *)

Lemma load_unreferenced (db : DB) (i : Z) :
  (forall a, In a (tbl_appeals db) -> Appeal.operator_id a <> Some i) ->
  load db i = 0.
Proof.
  intros H. unfold load, group_count.
  destruct (filter _ (tbl_appeals db)) as [|a l] eqn:E; [reflexivity|].
  assert (Hin : In a (filter (fun a => opt_Z_eqb (Appeal.operator_id a) (Some i))
                             (tbl_appeals db))) by (rewrite E; now left).
  apply filter_In in Hin as [Hin Heq]. apply opt_Z_eqb_eq in Heq.
  now apply H in Hin.
Qed.

(** X12: as long as no operator is updated, the service never over-assigns:
    after any sequence of the other requests from the empty database, every
    operator whose [max_load] is at least 1 holds at most [max_load]
    appeals. *)
Theorem capacity_kept_without_updates (rs : list request) (op : Operator.t) (m : Z) :
  Forall (fun r => ~ is_update_operator r) rs ->
  In op (tbl_operators (run rs empty_db)) ->
  Operator.max_load op = Some m -> 1 <= m ->
  load (run rs empty_db) (Operator.id op) <= m.
Proof.
  revert op m. induction rs as [|r rs IH] using rev_ind; intros op m Hrs Hop Hm Hm1;
    [contradiction|].
  apply Forall_app in Hrs as [Hrs Hr]. inversion Hr as [|? ? Hnot _]; subst.
  rewrite run_snoc in *.
  pose proof (run_consistent rs empty_db empty_db_consistent) as Hc.
  set (db := run rs empty_db) in *.
  assert (Hnd : NoDup (map Operator.id (tbl_operators db)))
    by (rewrite (operator_ids db Hc); apply ids_from_one_NoDup).
  destruct r as [o| |i u|s| |os|s|a x now| |]; simpl in *;
    try (now apply IH); try (exfalso; now apply Hnot).
  - apply in_app_or in Hop as [Hop | [<- | []]]; [now apply IH|].
    simpl. change (load (insert_operator _ db)) with (load db).
    rewrite load_unreferenced; [lia|].
    intros r Hr' Hassigned.
    destruct (appeal_references db Hc r Hr') as [_ Hrefs].
    destruct (Hrefs _ Hassigned) as [(op' & Hop' & Hid) _].
    pose proof (next_rowid_gt (map Operator.id (tbl_operators db)) (Operator.id op')
                  (in_map _ _ _ Hop')) as Hgt.
    lia.
  - assert (Ho : tbl_operators (snd (create_appeal a x now db)) = tbl_operators db)
      by (destruct (create_appeal_db a x now db) as [added ->]; reflexivity).
    rewrite Ho in Hop.
    apply create_appeal_capacity; try assumption. now apply IH.
Qed.

Lemma capacity_kept_without_updates_example :
  load (run [CreateOperator (OperatorCreate.mk "O" true 1);
             CreateSource (SourceCreate.mk "S");
             CreateOperatorSource (OperatorSourceCreate.mk 1 1 1);
             CreateAppeal (an_appeal "lead-1" 1) 0 "2024-01-01T00:00:00";
             CreateAppeal (an_appeal "lead-2" 1) 0 "2024-01-01T00:00:01"]
            empty_db) 1 <= 1.
Proof.
  apply (capacity_kept_without_updates _ (the_operator "O" 1) 1).
  - repeat constructor; intros H; exact H.
  - now left.
  - reflexivity.
  - lia.
Defined.

(** ** [update_operator] and eligibility *)

(** X13: once [update_operator] has set [is_active] of operator [i] to false
    or to null, no candidate row of any source belongs to [i] and
    [create_appeal] does not assign [i], whatever its weights, its load and
    its capacity. *)
Theorem update_operator_deactivates (i : Z) (u : OperatorUpdate.t) (db : DB)
    (v : option bool) :
  OperatorUpdate.is_active u = Some v -> v <> Some true ->
  let db' := snd (update_operator i u db) in
  (forall s op w, In (op, w) (candidates db' s) -> Operator.id op <> i) /\
  (forall a x now r, fst (create_appeal a x now db') = inr r ->
     Appeal.operator_id r <> Some i).
Proof.
  intros Hu Hv db'.
  assert (Hcands : forall s op w, In (op, w) (candidates db' s) -> Operator.id op <> i).
  { intros s op w Hin Hid. apply in_candidates in Hin as (Hop & Hpass & _).
    apply operator_passes_iff in Hpass as [Hact _].
    unfold db' in Hop. rewrite update_operator_run in Hop.
    destruct (find _ (tbl_operators db)) as [o|] eqn:E; simpl in Hop.
    - apply in_map_iff in Hop as (o' & Ho' & _).
      destruct (Operator.id o' =? i) eqn:E'.
      + subst op. simpl in Hact. rewrite Hu in Hact. congruence.
      + subst o'. apply Z.eqb_neq in E'. contradiction.
    - pose proof (find_none _ _ E op Hop) as Hf. simpl in Hf.
      apply Z.eqb_neq in Hf. contradiction. }
  split; [exact Hcands|].
  intros a x now r Hr Hassigned.
  destruct (assigned_operator_is_candidate _ _ _ _ _ _ Hr Hassigned)
    as (op & w & Hin & Hid & _).
  now apply (Hcands _ _ _ Hin).
Qed.

(** O2 of Scenario A is deactivated: every ticket now goes to O1. *)
Lemma update_operator_deactivates_example :
  exists r,
    fst (create_appeal (an_appeal "lead-1" 1) 3 "2024-01-01T00:00:00"
           (snd (update_operator 2 (OperatorUpdate.mk (Some (Some false)) None)
                                 scenario_two_operators))) = inr r /\
    Appeal.operator_id r <> Some 2.
Proof.
  eexists. split; [reflexivity|].
  apply (proj2 (update_operator_deactivates 2
                  (OperatorUpdate.mk (Some (Some false)) None)
                  scenario_two_operators (Some false) eq_refl
                  ltac:(discriminate))
           (an_appeal "lead-1" 1) 3 "2024-01-01T00:00:00").
  reflexivity.
Defined.

(** X14: [create_appeal] reads the row [update_operator] stored.  An
    operator linked to the source whose updated row is active and has a
    [max_load] above its load gives a candidate row after the update; raising
    [max_load] is how an operator that was full comes back. *)
Theorem update_operator_readmits (u : OperatorUpdate.t) (db : DB) (s : Z)
    (op : Operator.t) (os : OperatorSource.t) (m : Z) :
  In op (tbl_operators db) ->
  In os (tbl_operator_sources db) ->
  OperatorSource.operator_id os = Operator.id op ->
  OperatorSource.source_id os = s ->
  Operator.is_active (apply_update u op) = Some true ->
  Operator.max_load (apply_update u op) = Some m ->
  load db (Operator.id op) < m ->
  In (apply_update u op, OperatorSource.weight os)
     (candidates (snd (update_operator (Operator.id op) u db)) s).
Proof.
  intros Hop Hos Hl1 Hl2 Hact Hm Hload.
  rewrite update_operator_run.
  destruct (find _ (tbl_operators db)) as [o|] eqn:E.
  - cbn [snd]. apply in_candidates. split; [|split].
    + simpl. apply in_map_iff. exists op. split; [|assumption].
      now rewrite Z.eqb_refl.
    + apply operator_passes_iff. split; [assumption|]. right. exists m.
      split; [assumption|]. exact Hload.
    + exists os. repeat split; [assumption|]. apply linked_iff. now split.
  - pose proof (find_none _ _ E op Hop) as Hf. simpl in Hf.
    rewrite Z.eqb_refl in Hf. discriminate.
Qed.

(** Scenario D: O5 is full at capacity 1; with [max_load] raised to 2 it is
    a candidate again. *)
Lemma update_operator_readmits_scenario_D :
  candidates scenario_full 1 = [] /\
  In (the_operator "O5" 2, 1)
     (candidates (snd (update_operator 1 (OperatorUpdate.mk None (Some (Some 2)))
                                       scenario_full)) 1).
Proof.
  split; [reflexivity|].
  apply (update_operator_readmits (OperatorUpdate.mk None (Some (Some 2)))
           scenario_full 1 (the_operator "O5" 1) (OperatorSource.mk 1 1 1 1) 2);
    try reflexivity; try (now left).
Defined.

(** ** Calls of [create_appeal] one after the other *)

Lemma after_lead_known (e : string) (db : DB) (l : Lead.t) :
  In l (tbl_leads db) -> Lead.external_id l = e -> after_lead e db = db.
Proof.
  intros Hin He. unfold after_lead.
  destruct (find _ (tbl_leads db)) as [l'|] eqn:E; [reflexivity|].
  pose proof (find_none _ _ E l Hin) as Hf. simpl in Hf.
  rewrite He, String.eqb_refl in Hf. discriminate.
Qed.

Lemma create_appeal_returns (a : AppealCreate.t) (x : Z) (now : string) (db : DB)
    (r : Appeal.t) :
  fst (create_appeal a x now db) = inr r ->
  tbl_appeals (snd (create_appeal a x now db)) = tbl_appeals db ++ [r] /\
  Appeal.id r = next_rowid (map Appeal.id (tbl_appeals db)) /\
  Appeal.lead_id r = Lead.id (resolved_lead (AppealCreate.external_id a) db).
Proof.
  rewrite create_appeal_run.
  destruct (after_lead_frame (AppealCreate.external_id a) db) as (_ & _ & _ & Ha).
  destruct (select_operator _ x); simpl; [discriminate|].
  intros H. injection H as <-. now rewrite Ha.
Qed.

(** X15: a second [create_appeal] with an external identifier the first one
    used, whatever the sources, the messages and the outcomes of the two
    calls, adds no lead; and when both return, their appeals are the two new
    last rows of the table, the second with the larger identifier, under one
    and the same lead. *)
Theorem second_call_reuses_lead (a1 a2 : AppealCreate.t) (x1 x2 : Z)
    (t1 t2 : string) (db : DB) :
  AppealCreate.external_id a1 = AppealCreate.external_id a2 ->
  let first := create_appeal a1 x1 t1 db in
  let second := create_appeal a2 x2 t2 (snd first) in
  tbl_leads (snd second) = tbl_leads (snd first) /\
  (forall r1 r2, fst first = inr r1 -> fst second = inr r2 ->
     tbl_appeals (snd second) = tbl_appeals db ++ [r1; r2] /\
     Appeal.lead_id r1 = Appeal.lead_id r2 /\
     Appeal.id r1 < Appeal.id r2).
Proof.
  intros He. cbv zeta.
  set (db1 := snd (create_appeal a1 x1 t1 db)).
  destruct (resolved_lead_in (AppealCreate.external_id a1) db) as [Hin Hext].
  rewrite <- (tbl_leads_create_appeal a1 x1 t1 db) in Hin. fold db1 in Hin.
  split.
  - rewrite tbl_leads_create_appeal, <- He.
    now rewrite (after_lead_known _ db1 _ Hin Hext).
  - intros r1 r2 H1 H2.
    apply create_appeal_returns in H1 as (Happ1 & _ & Hl1). fold db1 in Happ1.
    apply create_appeal_returns in H2 as (Happ2 & Hid2 & Hl2).
    rewrite Happ2, Happ1, <- app_assoc. split; [reflexivity|]. split.
    + rewrite Hl1, Hl2, <- He. unfold db1.
      now rewrite resolved_lead_create_appeal.
    + rewrite Hid2. apply next_rowid_gt. rewrite Happ1, map_app.
      apply in_or_app. right. now left.
Qed.

(** The same person writes through source 1, then through a source without
    operators: one lead, two appeals. *)
Lemma second_call_reuses_lead_example :
  let first := create_appeal (an_appeal "lead-1" 1) 0 "2024-01-01T00:00:00"
                             scenario_two_operators in
  let second := create_appeal (an_appeal "lead-1" 9) 0 "2024-01-01T00:00:01"
                              (snd first) in
  tbl_leads (snd second) = [Lead.mk 1 "lead-1"] /\
  tbl_appeals (snd second) =
    [Appeal.mk 1 1 1 (Some 1) "2024-01-01T00:00:00" None;
     Appeal.mk 2 1 9 None "2024-01-01T00:00:01" None].
Proof.
  intros first second.
  destruct (second_call_reuses_lead (an_appeal "lead-1" 1) (an_appeal "lead-1" 9)
              0 0 "2024-01-01T00:00:00" "2024-01-01T00:00:01"
              scenario_two_operators eq_refl) as [Hleads Happeals].
  split; [exact Hleads|].
  destruct (Happeals (Appeal.mk 1 1 1 (Some 1) "2024-01-01T00:00:00" None)
                     (Appeal.mk 2 1 9 None "2024-01-01T00:00:01" None)
                     eq_refl eq_refl) as [H _].
  exact H.
Defined.

(** X16: when all the candidate rows of positive weight belong to one
    operator and there is at least one, [create_appeal] assigns that operator
    on every ticket; the draw has nothing to decide. *)
Theorem sole_operator_always_assigned (db : DB) (a : AppealCreate.t)
    (now : string) (o : Z) :
  (exists op w, In (op, w) (candidates db (AppealCreate.source_id a)) /\ 0 < w) ->
  (forall op w, In (op, w) (candidates db (AppealCreate.source_id a)) -> 0 < w ->
     Operator.id op = o) ->
  forall x, exists r, fst (create_appeal a x now db) = inr r /\
                      Appeal.operator_id r = Some o.
Proof.
  intros (op & w & Hin & Hw) Hsole x. rewrite create_appeal_run.
  assert (Hne : positive_pairs (candidates db (AppealCreate.source_id a)) <> []).
  { intros E.
    assert (H : In (Operator.id op, w)
                   (positive_pairs (candidates db (AppealCreate.source_id a))))
      by (apply positive_pairs_in; now exists op).
    rewrite E in H. contradiction. }
  destruct (select_operator_total _ x Hne) as (o' & w' & Hsel & Hrow).
  apply positive_pairs_in in Hrow as (op' & Hin' & Hid & Hw').
  rewrite Hsel. eexists. split; [reflexivity|]. simpl.
  rewrite <- Hid. f_equal. now apply (Hsole op' w').
Qed.

(** O1 of Scenario A has reached its capacity of 2: O2 takes the third
    appeal on every ticket. *)
Lemma sole_operator_always_assigned_example :
  exists r,
    fst (create_appeal (an_appeal "lead-3" 1) 0 "2024-01-01T00:00:02"
           (run [CreateAppeal (an_appeal "lead-1" 1) 0 "2024-01-01T00:00:00";
                 CreateAppeal (an_appeal "lead-2" 1) 0 "2024-01-01T00:00:01"]
                scenario_two_operators)) = inr r /\
    Appeal.operator_id r = Some 2.
Proof.
  apply sole_operator_always_assigned.
  - exists (Operator.mk 2 "O2" (Some true) (Some 2)), 3. split; [now left|lia].
  - intros op w [H | []] _. now injection H as <- _.
Defined.

(** X17: an appeal [create_appeal] has returned is found by [list_appeals] as
    the last row, and by [list_leads] among the appeals of a lead that has
    the external identifier of the request. *)
Theorem create_appeal_listed (a : AppealCreate.t) (x : Z) (now : string) (db : DB)
    (r : Appeal.t) :
  fst (create_appeal a x now db) = inr r ->
  let db' := snd (create_appeal a x now db) in
  list_appeals db' = (inr (tbl_appeals db ++ [r]), db') /\
  exists listing l appeals,
    list_leads db' = (inr listing, db') /\
    In (l, appeals) listing /\
    Lead.external_id l = AppealCreate.external_id a /\
    In r appeals.
Proof.
  intros Hr db'.
  destruct (create_appeal_returns a x now db r Hr) as (Happ & _ & Hlead).
  fold db' in Happ.
  destruct (resolved_lead_in (AppealCreate.external_id a) db) as [Hin Hext].
  rewrite <- (tbl_leads_create_appeal a x now db) in Hin. fold db' in Hin.
  split.
  - unfold list_appeals. rewrite bind_run. unfold get, ret. now rewrite Happ.
  - eexists. exists (resolved_lead (AppealCreate.external_id a) db).
    eexists. split; [reflexivity|]. split; [|split].
    + apply in_map_iff. eexists. split; [reflexivity|assumption].
    + assumption.
    + apply filter_In. split.
      * rewrite Happ. apply in_or_app. right. now left.
      * now apply Z.eqb_eq.
Qed.

Lemma create_appeal_listed_example :
  let db' := snd (create_appeal (an_appeal "lead-1" 1) 0 "2024-01-01T00:00:00"
                                scenario_two_operators) in
  fst (list_appeals db') = inr [Appeal.mk 1 1 1 (Some 1) "2024-01-01T00:00:00" None] /\
  fst (list_leads db') =
    inr [(Lead.mk 1 "lead-1",
          [Appeal.mk 1 1 1 (Some 1) "2024-01-01T00:00:00" None])].
Proof.
  intros db'.
  destruct (create_appeal_listed (an_appeal "lead-1" 1) 0 "2024-01-01T00:00:00"
              scenario_two_operators
              (Appeal.mk 1 1 1 (Some 1) "2024-01-01T00:00:00" None) eq_refl)
    as [Happeals _].
  fold db' in Happeals. rewrite Happeals. split; reflexivity.
Defined.

(** ** Candidates over time and row by row *)

(** X18: creating appeals never makes anybody eligible.  After any sequence
    of [create_appeal] calls every candidate row of a source was a candidate
    row before; so a source without candidates keeps none. *)
Theorem candidates_only_shrink (rs : list request) (db : DB) (s : Z) :
  Forall is_create_appeal rs ->
  (forall c, In c (candidates (run rs db) s) -> In c (candidates db s)) /\
  (candidates db s = [] -> candidates (run rs db) s = []).
Proof.
  intros Hrs.
  destruct (run_create_appeals_frame rs db Hrs) as (Ho & _ & Hos).
  assert (Hsub : forall c, In c (candidates (run rs db) s) -> In c (candidates db s)).
  { intros [op w] Hin. apply in_candidates in Hin as (Hop & Hpass & os & Hin' & Hl & Hw).
    apply operator_passes_iff in Hpass as [Hact Hcap].
    pose proof (load_run rs db (Operator.id op)) as Hmono.
    pose proof (load_nonneg db (Operator.id op)) as Hnn.
    apply in_candidates. rewrite Ho in Hop. rewrite Hos in Hin'.
    split; [assumption|]. split; [|now exists os].
    apply operator_passes_iff. split; [assumption|].
    destruct Hcap as [H0 | (m & Hm & Hlt)]; [left; lia|].
    right. exists m. split; [assumption|lia]. }
  split; [exact Hsub|].
  intros Hnil.
  destruct (candidates (run rs db) s) as [|c cs] eqn:E; [reflexivity|].
  assert (Hin : In c (candidates db s)) by (apply Hsub; rewrite ?E; now left).
  rewrite Hnil in Hin. contradiction.
Qed.

(** Scenario D: O5 is full, and after two more appeals the source still
    has no candidate. *)
Lemma candidates_only_shrink_scenario_D :
  candidates scenario_full 1 = [] /\
  candidates
    (run [CreateAppeal (an_appeal "lead-1" 1) 0 "2024-01-01T00:00:01";
          CreateAppeal (an_appeal "lead-2" 1) 0 "2024-01-01T00:00:02"]
         scenario_full) 1 = [].
Proof.
  split; [reflexivity|].
  apply (proj2 (candidates_only_shrink
                  [CreateAppeal (an_appeal "lead-1" 1) 0 "2024-01-01T00:00:01";
                   CreateAppeal (an_appeal "lead-2" 1) 0 "2024-01-01T00:00:02"]
                  scenario_full 1 ltac:(repeat constructor))).
  reflexivity.
Defined.

(** X19: the candidate list holds each pair of an operator and a weight at
    most once, however many affinity rows link that operator to the source
    with that weight (the legacy [Query] returns distinct rows), and it holds
    the pair exactly when the operator is in the table, active and within
    capacity and one of its affinity rows for the source has that weight.  A
    link entered twice with the same weight counts once in the draw; links of
    different weights count separately. *)
Theorem candidates_distinct (db : DB) (s : Z) (op : Operator.t) (w : Z) :
  NoDup (candidates db s) /\
  (In (op, w) (candidates db s) <->
   In op (tbl_operators db) /\
   Operator.is_active op = Some true /\
   (load db (Operator.id op) = 0 \/
    exists m, Operator.max_load op = Some m /\ load db (Operator.id op) < m) /\
   exists os, In os (tbl_operator_sources db) /\
              OperatorSource.operator_id os = Operator.id op /\
              OperatorSource.source_id os = s /\
              OperatorSource.weight os = w).
Proof.
  split; [apply unique_list_NoDup|].
  rewrite in_candidates, operator_passes_iff. split.
  - intros (Hop & [Hact Hcap] & os & Hos & Hl & Hw).
    apply linked_iff in Hl as [Hl1 Hl2]. repeat split; try assumption.
    now exists os.
  - intros (Hop & Hact & Hcap & os & Hos & Hl1 & Hl2 & Hw).
    repeat split; try assumption. exists os. repeat split; try assumption.
    now apply linked_iff.
Qed.

(** Four affinity rows, two of them alike: three candidate rows, total
    weight 8. *)
Lemma candidates_distinct_repeated_link :
  candidates scenario_repeated_link 1 =
    [(Operator.mk 1 "O1" (Some true) (Some 5), 3);
     (Operator.mk 2 "O2" (Some true) (Some 5), 4);
     (Operator.mk 1 "O1" (Some true) (Some 5), 1)] /\
  total_weight (candidates scenario_repeated_link 1) = 8 /\
  NoDup (candidates scenario_repeated_link 1).
Proof.
  split; [reflexivity|]. split; [reflexivity|].
  exact (proj1 (candidates_distinct scenario_repeated_link 1
                  (Operator.mk 1 "O1" (Some true) (Some 5)) 3)).
Defined.

(** ** Load accounting *)

(** X20: a call of [create_appeal] that returns an appeal assigned to an
    operator raises the load of that operator by exactly one and of no other;
    a call that returns an unassigned appeal or raises changes no load. *)
Theorem create_appeal_load (a : AppealCreate.t) (x : Z) (now : string) (db : DB)
    (i : Z) :
  load (snd (create_appeal a x now db)) i =
  load db i +
  match fst (create_appeal a x now db) with
  | inr r => if opt_Z_eqb (Appeal.operator_id r) (Some i) then 1 else 0
  | inl _ => 0
  end.
Proof.
  rewrite create_appeal_run.
  destruct (select_operator _ x) as [e|o]; cbn [fst snd].
  - rewrite load_after_lead. lia.
  - now rewrite load_insert_appeal, load_after_lead.
Qed.
